(** * Top-languages fetcher: a shallow embedding of
      [src/fetchers/top-languages-fetcher.js] and its verified properties.

    Definitions come first and follow the source:
    - [JSObject]   ordinary JavaScript objects used as maps (own properties,
                   lookups that reach [Object.prototype], the order in which
                   properties are enumerated);
    - [JSNumber]   the Number values the pipeline computes with;
    - [JSArray]    [Array.prototype.sort] with a comparison function;
    - the pipeline of [fetchTopLanguages], stage by stage;
    - the request, the response and the errors thrown.

    Then come the facts about each layer and, last, the properties of
    [fetchTopLanguages]. *)

From Stdlib Require Import List String Ascii Bool ZArith NArith Lia.
From Stdlib Require Import Reals Floats Permutation Sorted.
Import ListNotations.
Open Scope string_scope.
Open Scope list_scope.

Set Implicit Arguments.

(* ================================================================== *)
(** * Ordinary JavaScript objects used as string-keyed maps *)
(* ================================================================== *)

Module JSObject.

(** Property names every ordinary object inherits from [Object.prototype]
    (ECMA-262 section 20.1.3 and Annex B.2.2).  Each of them holds a
    function, or, for [__proto__], the prototype object itself: all are
    truthy, and none of them has a [size] property. *)
Definition Object_prototype_keys : list string :=
  [ "constructor"; "hasOwnProperty"; "isPrototypeOf";
    "propertyIsEnumerable"; "toLocaleString"; "toString"; "valueOf";
    "__proto__"; "__defineGetter__"; "__defineSetter__";
    "__lookupGetter__"; "__lookupSetter__" ].

Definition inherited (k : string) : bool :=
  existsb (String.eqb k) Object_prototype_keys.

(** ** Array-index keys *)

Definition digit_of (c : ascii) : option N :=
  let n := N_of_ascii c in
  if ((48 <=? n) && (n <=? 57))%N then Some (n - 48)%N else None.

Fixpoint digits_value (acc : N) (s : string) : option N :=
  match s with
  | EmptyString => Some acc
  | String c s' =>
      match digit_of c with
      | Some d => digits_value (10 * acc + d)%N s'
      | None => None
      end
  end.

(** A key is an array index when it is the canonical decimal form of an
    integer in [0, 2^32 - 2]. *)
Definition array_index (s : string) : option N :=
  match s with
  | EmptyString => None
  | String c s' =>
      if Ascii.eqb c "0" && negb (String.eqb s' EmptyString) then None
      else match digits_value 0 s with
           | Some n => if (n <? 2 ^ 32 - 1)%N then Some n else None
           | None => None
           end
  end.

(** ** Objects *)

(** An object literal [{}] and what grows out of it: the own enumerable
    data properties, in creation order. *)
Definition obj (V : Type) : Type := list (string * V).

(** The result of the property read [o[k]]. *)
Inductive lookup (V : Type) : Type :=
| Own (v : V)      (* an own property *)
| Inherited        (* found on Object.prototype *)
| Absent.          (* undefined *)

Arguments Inherited {V}.
Arguments Absent {V}.

Section Ops.
Variable V : Type.

Fixpoint get_own (k : string) (o : obj V) : option V :=
  match o with
  | [] => None
  | (k', v) :: o' => if String.eqb k k' then Some v else get_own k o'
  end.

Definition get (k : string) (o : obj V) : lookup V :=
  match get_own k o with
  | Some v => Own v
  | None => if inherited k then Inherited else Absent
  end.

(** CreateDataProperty: an existing own property keeps its place and takes
    the new value, a new one is appended. *)
Fixpoint define (k : string) (v : V) (o : obj V) : obj V :=
  match o with
  | [] => [(k, v)]
  | (k', v') :: o' =>
      if String.eqb k k' then (k, v) :: o' else (k', v') :: define k v o'
  end.

(** The assignment [o[k] = v].  For the key [__proto__] the setter inherited
    from [Object.prototype] runs: it replaces the prototype of [o] when [v]
    is an object and does nothing otherwise; in both cases no own property
    is created. *)
Definition assign (k : string) (v : V) (o : obj V) : obj V :=
  if String.eqb k "__proto__" then o else define k v o.

(** ** Property enumeration order (OrdinaryOwnPropertyKeys) *)

Fixpoint insert_index (n : N) (kv : string * V)
         (l : list (N * (string * V))) : list (N * (string * V)) :=
  match l with
  | [] => [(n, kv)]
  | (m, kv') :: l' =>
      if (n <? m)%N then (n, kv) :: l
      else (m, kv') :: insert_index n kv l'
  end.

Fixpoint index_entries (o : obj V) : list (N * (string * V)) :=
  match o with
  | [] => []
  | kv :: o' =>
      match array_index (fst kv) with
      | Some n => insert_index n kv (index_entries o')
      | None => index_entries o'
      end
  end.

Definition named_entries (o : obj V) : obj V :=
  filter (fun kv => match array_index (fst kv) with
                    | Some _ => false
                    | None => true
                    end) o.

(** Own properties in the order every enumeration sees them: array indices
    ascending, then the other keys in creation order. *)
Definition entries (o : obj V) : list (string * V) :=
  map snd (index_entries o) ++ named_entries o.

(** [Object.keys(o)] *)
Definition keys (o : obj V) : list string := map fst (entries o).

(** The spread [{...o}] copies the own properties, in enumeration order,
    into a fresh object. *)
Definition spread (o : obj V) : obj V := entries o.

End Ops.

End JSObject.

(* ================================================================== *)
(** * Number values *)
(* ================================================================== *)

Module JSNumber.

(** Sizes before weighting.  Edge sizes are GraphQL [Int]s and at most a
    thousand of them are added, so every sum is an integer below 2^53 and
    Number addition is exact on them; [IntNaN] is what [n + undefined]
    evaluates to. *)
Inductive jsint : Type :=
| Int (z : Z)
| IntNaN.

Definition int_add (a b : jsint) : jsint :=
  match a, b with
  | Int x, Int y => Int (x + y)
  | _, _ => IntNaN
  end.

Definition int_lt0 (v : jsint) : bool :=
  match v with
  | Int z => (z <? 0)%Z
  | IntNaN => false
  end.

(** Numbers after weighting are the Number values themselves: IEEE 754
    binary64, here the primitive floats, whose product, difference and
    comparisons round, overflow and produce NaN as those of JavaScript do. *)
Definition number : Type := float.

Definition NaN : number := nan.

(** The Number an integer denotes: the nearest binary64 value, the integer
    itself below 2^53. *)
Definition of_int (v : jsint) : number :=
  match v with
  | Int z => SF2Prim (binary_normalize prec emax z 0 false)
  | IntNaN => NaN
  end.

Definition mul (a b : number) : number := PrimFloat.mul a b.

Definition sub (a b : number) : number := PrimFloat.sub a b.

Definition lt0 (v : number) : bool := PrimFloat.ltb v zero.

(** [a <= b] on Numbers; it holds of no pair with a NaN. *)
Definition le (a b : number) : Prop := PrimFloat.leb a b = true.

(** The integer a Number is, when it is one. *)
Definition integer_value (x : number) : option Z :=
  match Prim2SF x with
  | S754_zero _ => Some 0%Z
  | S754_finite s m e =>
      if (0 <=? e)%Z then Some (cond_Zopp s (Zpos m * 2 ^ e))
      else if (Zpos m mod 2 ^ (- e) =? 0)%Z
           then Some (cond_Zopp s (Zpos m / 2 ^ (- e)))
           else None
  | _ => None
  end.

Definition is_integer (x : number) : bool :=
  match integer_value x with
  | Some _ => true
  | None => false
  end.

Definition is_odd_integer (x : number) : bool :=
  match integer_value x with
  | Some n => Z.odd n
  | None => false
  end.

(** [2 ^ bound <= b ^ n], for [b >= 2] and [n >= 1]; the first test keeps
    the power from being computed when the exponent is large. *)
Definition power_reaches (b n bound : Z) : bool :=
  if (bound <=? Z.log2 b * n)%Z then true else (2 ^ bound <=? b ^ n)%Z.

(** Powers of an integer to an integer that lie outside the binary64 range
    by more than a factor 2: no approximation of the real power is a finite
    non-zero Number, the result is an infinity or a zero.  Every other power
    is left to [pow_approx]. *)
Definition out_of_range (pow_approx : number -> number -> number)
           (base exponent : number) : number :=
  match integer_value base, integer_value exponent with
  | Some b, Some n =>
      let negative := (b <? 0)%Z && Z.odd n in
      if (2 <=? Z.abs b)%Z && (0 <? n)%Z && power_reaches (Z.abs b) n 1025
      then (if negative then neg_infinity else infinity)
      else if (2 <=? Z.abs b)%Z && (n <? 0)%Z
              && power_reaches (Z.abs b) (- n) 1076
           then (if negative then neg_zero else zero)
           else pow_approx base exponent
  | _, _ => pow_approx base exponent
  end.

(** [Math.pow(base, exponent)], following Number::exponentiate of ECMA-262
    step by step.  Its last step leaves the result to the implementation
    ("an implementation-approximated Number value representing the result of
    raising base to the exponent power"): that is the parameter
    [pow_approx].  Two cases of that step are fixed here, in which nothing
    is approximated: the exponent 1, for which the power is the base itself,
    and the powers of integers far outside the binary64 range, which are an
    infinity or a zero ([out_of_range]). *)
Definition Math_pow (pow_approx : number -> number -> number)
           (base exponent : number) : number :=
  if is_nan exponent then NaN
  else if is_zero exponent then one
  else if is_nan base then NaN
  else
    let up := PrimFloat.ltb zero exponent in
    let odd := is_odd_integer exponent in
    match Prim2SF base with
    | S754_infinity false => if up then infinity else zero
    | S754_infinity true =>
        if up then (if odd then neg_infinity else infinity)
        else (if odd then neg_zero else zero)
    | S754_zero false => if up then zero else infinity
    | S754_zero true =>
        if up then (if odd then neg_zero else zero)
        else (if odd then neg_infinity else infinity)
    | _ =>
        if is_infinity exponent
        then (if PrimFloat.ltb one (abs base)
              then (if up then infinity else zero)
              else if PrimFloat.eqb (abs base) one then NaN
                   else (if up then zero else infinity))
        else if PrimFloat.ltb base zero && negb (is_integer exponent) then NaN
        else if PrimFloat.eqb exponent one then base
        else out_of_range pow_approx base exponent
    end.

End JSNumber.

(* ================================================================== *)
(** * [Array.prototype.sort] *)
(* ================================================================== *)

Module JSArray.

Section Sort.
Variable A : Type.

(** [before a b] stands for [comparefn(a, b) < 0]: [a] has to come before
    [b].  Elements are inserted from the last to the first, each one in front
    of the first element that does not have to come before it, so that
    elements the comparison does not separate (result positive on one side
    only, zero or NaN) keep their order: the sort is stable, as ECMA-262
    requires.  For a consistent comparison function the standard determines
    the sorted array and this is it; otherwise the order is left to the
    implementation. *)
Variable before : A -> A -> bool.

Fixpoint insert (x : A) (l : list A) : list A :=
  match l with
  | [] => [x]
  | y :: l' => if before y x then y :: insert x l' else x :: l
  end.

Definition sort (l : list A) : list A := fold_right insert [] l.

End Sort.

End JSArray.

(* ================================================================== *)
(** * The pipeline of [fetchTopLanguages] *)
(* ================================================================== *)

Import JSObject JSNumber.

(** ** Data received from the GraphQL API *)

(** [node { color name }]; GitHub reports [null] for a language without a
    colour. *)
Record LanguageNode : Type := mkNode {
  node_color : option string;
  node_name : string
}.

(** [edges { size node }] *)
Record LanguageEdge : Type := mkEdge {
  edge_size : Z;
  edge_node : LanguageNode
}.

(** [nodes { name languages { edges } }].  The query does not ask for a
    [size] of the repository, yet the pre-sort reads it: [repo_size] is
    [None] where the attribute is undefined. *)
Record RepositoryNode : Type := mkRepo {
  repo_name : string;
  repo_size : option Z;
  repo_edges : list LanguageEdge
}.

(** ** Data produced *)

(** One entry of the result, [{ name, color, size, count }]; the type of
    [size] changes with the weighting. *)
Record Lang (S : Type) : Type := mkLang {
  name : string;
  color : option string;
  size : S;
  count : Z
}.

Definition TopLangData : Type := obj (Lang number).

(** ** Exclusion (lines 99-112) *)

(** [repoToHide]: every excluded name is assigned [true] on a fresh [{}]. *)
Definition repoToHide (exclude_repo : option (list string)) : obj bool :=
  match exclude_repo with
  | Some names =>
      fold_left (fun hide repoName => assign repoName true hide) names []
  | None => []
  end.

(** Truthiness of [repoToHide[repo.name]]. *)
Definition hidden (hide : obj bool) (repo : RepositoryNode) : bool :=
  match get (repo_name repo) hide with
  | Own b => b
  | Inherited => true
  | Absent => false
  end.

(** The comparison function of the pre-sort, [b.size - a.size]. *)
Definition repo_comparefn (a b : RepositoryNode) : jsint :=
  match repo_size b, repo_size a with
  | Some sb, Some sa => Int (sb - sa)
  | _, _ => IntNaN
  end.

Definition presort (nodes : list RepositoryNode) : list RepositoryNode :=
  JSArray.sort (fun a b => int_lt0 (repo_comparefn a b)) nodes.

Definition shown_repos (nodes : list RepositoryNode)
           (exclude_repo : option (list string)) : list RepositoryNode :=
  filter (fun repo => negb (hidden (repoToHide exclude_repo) repo))
         (presort nodes).

(** ** Flattening (lines 117-119) *)

Definition flatten_edges (nodes : list RepositoryNode) : list LanguageEdge :=
  fold_left (fun acc curr => repo_edges curr ++ acc)
            (filter (fun node => (0 <? List.length (repo_edges node))%nat) nodes)
            [].

(** ** Aggregation (lines 114, 120-143) *)

Definition normalizedName (prev : LanguageEdge) : string :=
  if String.eqb (node_name (edge_node prev)) "Jupyter Notebook"
  then "Python"
  else node_name (edge_node prev).

Definition normalizedColor (prev : LanguageEdge) : option string :=
  if String.eqb (normalizedName prev) "Python"
  then Some "#3572A5"
  else node_color (edge_node prev).

(** One call of the reducer; the state pairs the accumulator [acc] with the
    variable [repoCount] the callback closes over. *)
Definition reducer (st : obj (Lang jsint) * Z) (prev : LanguageEdge)
  : obj (Lang jsint) * Z :=
  let (acc, repoCount) := st in
  let (langSize, repoCount') :=
    match get (normalizedName prev) acc with
    | Own entry => (int_add (Int (edge_size prev)) (size entry), repoCount + 1)
    | Inherited => (IntNaN, repoCount + 1)
    | Absent => (Int (edge_size prev), 1)
    end%Z in
  (define (normalizedName prev)
          {| name := normalizedName prev;
             color := normalizedColor prev;
             size := langSize;
             count := repoCount' |}
          (spread acc),
   repoCount').

Definition aggregate_state (edges : list LanguageEdge) : obj (Lang jsint) * Z :=
  fold_left reducer edges ([], 0%Z).

Definition aggregate (edges : list LanguageEdge) : obj (Lang jsint) :=
  fst (aggregate_state edges).

(** ** Weighting (lines 145-150) *)

Section Engine.

(** What the engine's [Math.pow] returns where ECMA-262 leaves it to the
    implementation. *)
Variable pow_approx : number -> number -> number.

Definition weighted_size (size_weight count_weight : number)
           (entry : Lang jsint) : number :=
  mul (Math_pow pow_approx (of_int (size entry)) size_weight)
      (Math_pow pow_approx (of_int (Int (count entry))) count_weight).

(** The assignment [repoNodes[name].size = ...] on one entry. *)
Definition weigh (size_weight count_weight : number) (entry : Lang jsint)
  : Lang number :=
  {| name := name entry;
     color := color entry;
     size := weighted_size size_weight count_weight entry;
     count := count entry |}.

Definition weighting (size_weight count_weight : number)
           (repoNodes : obj (Lang jsint)) : obj (Lang number) :=
  map (fun kv => (fst kv, weigh size_weight count_weight (snd kv)))
      repoNodes.

(** ** Ranking (lines 152-160) *)

(** [repoNodes[key].size] for a key of [repoNodes]. *)
Definition size_at (repoNodes : obj (Lang number)) (key : string) : number :=
  match get_own key repoNodes with
  | Some entry => size entry
  | None => NaN
  end.

(** [(a, b) => repoNodes[b].size - repoNodes[a].size] *)
Definition lang_comparefn (repoNodes : obj (Lang number)) (a b : string)
  : number :=
  sub (size_at repoNodes b) (size_at repoNodes a).

Definition sorted_keys (repoNodes : obj (Lang number)) : list string :=
  JSArray.sort (fun a b => lt0 (lang_comparefn repoNodes a b))
               (keys repoNodes).

Definition topLangs (repoNodes : obj (Lang number)) : TopLangData :=
  fold_left (fun result key =>
               match get_own key repoNodes with
               | Some entry => assign key entry result
               | None => result
               end)
            (sorted_keys repoNodes) [].

(** ** The whole computation on a successful response (lines 99-160) *)

Definition languages (nodes : list RepositoryNode)
           (exclude_repo : option (list string))
           (size_weight count_weight : number) : TopLangData :=
  topLangs
    (weighting size_weight count_weight
       (aggregate (flatten_edges (shown_repos nodes exclude_repo)))).

End Engine.

(* ================================================================== *)
(** * Requests, responses and errors (lines 67-97) *)
(* ================================================================== *)

(** One element of [res.data.errors]; both fields are optional. *)
Record GraphQLError : Type := mkError {
  err_type : option string;
  err_message : option string
}.

(** What [fetchTopLanguages] reads of the response: [res.data.errors]
    ([None] when absent), [res.statusText] and, on success,
    [res.data.data.user.repositories.nodes]. *)
Record AxiosResponse : Type := mkResponse {
  data_errors : option (list GraphQLError);
  statusText : string;
  data_nodes : list RepositoryNode
}.

(** The second argument of [CustomError]: one of its two static codes, or
    the status text of the response. *)
Inductive error_type : Type :=
| USER_NOT_FOUND
| GRAPHQL_ERROR
| Status (text : string).

Inductive error : Type :=
| MissingParamError (missedParams : list string)
| CustomError (message : option string) (type : error_type)
| TypeError.

(** What a call does besides computing: it awaits [retryer(fetcher, {login})],
    which yields a response or rejects, it logs through [logger.error], and
    it ends by returning or throwing. *)
Inductive prog (A : Type) : Type :=
| Return (a : A)
| Throw (e : error)
| Retryer (login : string) (k : error + AxiosResponse -> prog A)
| LoggerError (errors : list GraphQLError) (k : prog A).

Arguments Throw {A}.
Arguments Retryer {A}.
Arguments LoggerError {A}.

Inductive event : Type :=
| Fetched (login : string)
| Logged (errors : list GraphQLError).

(** Running a call against a given [retryer]: the collaborators invoked, in
    order, and the outcome. *)
Fixpoint run (A : Type) (retryer : string -> error + AxiosResponse)
         (p : prog A) : list event * (error + A) :=
  match p with
  | Return a => ([], inr a)
  | Throw e => ([], inl e)
  | Retryer login k =>
      let (trace, outcome) := run retryer (k (retryer login)) in
      (Fetched login :: trace, outcome)
  | LoggerError errors k =>
      let (trace, outcome) := run retryer k in
      (Logged errors :: trace, outcome)
  end.

(** A string that is present and not empty. *)
Definition truthy (s : option string) : option string :=
  match s with
  | Some EmptyString => None
  | Some s' => Some s'
  | None => None
  end.

(** [a || b] on strings *)
Definition or_else (a : option string) (b : string) : string :=
  match truthy a with
  | Some s => s
  | None => b
  end.

Definition is_NOT_FOUND (t : option string) : bool :=
  match t with
  | Some s => String.eqb s "NOT_FOUND"
  | None => false
  end.

Section Fetch.

(** The engine's part of [Math.pow], as above. *)
Variable pow_approx : number -> number -> number.

(** [wrapTextMultiline] of [common/utils.js]. *)
Variable wrapTextMultiline : string -> nat -> nat -> list string.

(** The errors branch, lines 79-97. *)
Definition throw_for (res : AxiosResponse) (errors : list GraphQLError)
  : prog TopLangData :=
  LoggerError errors
    match errors with
    | [] => Throw TypeError
    | first :: _ =>
        if is_NOT_FOUND (err_type first)
        then Throw (CustomError
                      (Some (or_else (err_message first)
                                     "Could not fetch user."))
                      USER_NOT_FOUND)
        else match truthy (err_message first) with
             | Some message =>
                 Throw (CustomError
                          (hd_error (wrapTextMultiline message 90 1))
                          (Status (statusText res)))
             | None =>
                 Throw (CustomError
                          (Some "Something went wrong while trying to retrieve the language data using the GraphQL API.")
                          GRAPHQL_ERROR)
             end
    end.

(** [fetchTopLanguages(username, exclude_repo = [], size_weight = 1,
    count_weight = 0)]; an argument left out is [None]. *)
Definition fetchTopLanguages (username : option string)
           (exclude_repo : option (list string))
           (size_weight count_weight : option number) : prog TopLangData :=
  match truthy username with
  | None => Throw (MissingParamError ["username"])
  | Some login =>
      Retryer login (fun outcome =>
        match outcome with
        | inl rejection => Throw rejection
        | inr res =>
            match data_errors res with
            | Some errors => throw_for res errors
            | None =>
                Return (languages pow_approx (data_nodes res)
                                  exclude_repo
                                  (match size_weight with
                                   | Some w => w
                                   | None => one
                                   end)
                                  (match count_weight with
                                   | Some w => w
                                   | None => zero
                                   end))
            end
        end)
  end.

End Fetch.

(* ================================================================== *)
(** * Vocabulary of the properties *)
(* ================================================================== *)

(** The edges aggregated under the canonical name [k]. *)
Definition edges_of (k : string) (edges : list LanguageEdge)
  : list LanguageEdge :=
  filter (fun e => String.eqb (normalizedName e) k) edges.

Definition total_size (edges : list LanguageEdge) : Z :=
  fold_right Z.add 0%Z (map edge_size edges).

(** The value of [repoCount] after each visited edge, oldest first. *)
Fixpoint counter_trace (st : obj (Lang jsint) * Z)
         (edges : list LanguageEdge) : list Z :=
  match edges with
  | [] => []
  | prev :: rest => snd (reducer st prev) :: counter_trace (reducer st prev) rest
  end.

(** The names the caller asked to exclude. *)
Definition excluded_names (exclude_repo : option (list string)) : list string :=
  match exclude_repo with
  | Some names => names
  | None => []
  end.

(** [size_before x y]: the comparison function of the ranking puts the
    entry [x] before the entry [y], its size being the larger one. *)
Definition size_before (x y : string * Lang number) : bool :=
  lt0 (sub (size (snd y)) (size (snd x))).

(** Neither of the two entries has to come before the other. *)
Definition tied (x y : string * Lang number) : bool :=
  negb (size_before x y) && negb (size_before y x).

(** An entry whose size is an integer from 0 up to 2^53, the range on which
    Numbers are the integers themselves. *)
Definition exact_size (x : string * Lang number) : Prop :=
  exists z, (0 <= z < 2 ^ 53)%Z /\ size (snd x) = of_int (Int z).


(** [l1] is [l2] with some elements left out, the others in their order. *)
Inductive Subseq (A : Type) : list A -> list A -> Prop :=
| Subseq_nil : Subseq [] []
| Subseq_keep x l1 l2 : Subseq l1 l2 -> Subseq (x :: l1) (x :: l2)
| Subseq_drop x l1 l2 : Subseq l1 l2 -> Subseq l1 (x :: l2).

(* ================================================================== *)
(** * Facts about objects *)
(* ================================================================== *)

Module JSObjectFacts.

Section Facts.
Variable V : Type.
Implicit Types (o : obj V) (k : string) (v : V).

Lemma get_own_In o k v : get_own k o = Some v -> In (k, v) o.
Proof.
  induction o as [|[k' v'] o IH]; simpl; [discriminate|].
  destruct (String.eqb_spec k k') as [->|_].
  - intros [= ->]. now left.
  - intros H. right. now apply IH.
Qed.

Lemma get_own_None o k : get_own k o = None <-> ~ In k (map fst o).
Proof.
  induction o as [|[k' v'] o IH]; simpl.
  - tauto.
  - destruct (String.eqb_spec k k') as [->|Hne].
    + split; [discriminate|]. intros H. exfalso. apply H. now left.
    + rewrite IH. split.
      * intros H [E|E]; [now apply Hne|now apply H].
      * intros H E. apply H. now right.
Qed.

Lemma In_get_own o k v :
  NoDup (map fst o) -> In (k, v) o -> get_own k o = Some v.
Proof.
  induction o as [|[k' v'] o IH]; simpl; [tauto|].
  intros Hnd [E|E].
  - injection E as -> ->. now rewrite String.eqb_refl.
  - inversion Hnd as [|? ? Hnotin Hnd']; subst.
    destruct (String.eqb_spec k k') as [->|_].
    + exfalso. apply Hnotin. now apply (in_map fst) in E.
    + now apply IH.
Qed.

Lemma get_own_Permutation o o' k :
  NoDup (map fst o) -> Permutation o o' -> get_own k o = get_own k o'.
Proof.
  intros Hnd Hp.
  assert (Hnd' : NoDup (map fst o')).
  { eapply Permutation_NoDup; [apply Permutation_map, Hp | exact Hnd]. }
  destruct (get_own k o) as [v|] eqn:E.
  - symmetry. apply In_get_own; [exact Hnd'|].
    eapply Permutation_in; [exact Hp|]. now apply get_own_In.
  - symmetry. apply get_own_None. apply get_own_None in E.
    intros H. apply E. eapply Permutation_in; [|exact H].
    apply Permutation_map. now apply Permutation_sym.
Qed.

(** *** [define] *)

Lemma get_own_define_same o k v : get_own k (define k v o) = Some v.
Proof.
  induction o as [|[k' v'] o IH]; simpl.
  - now rewrite String.eqb_refl.
  - destruct (String.eqb_spec k k') as [->|Hne]; simpl.
    + now rewrite String.eqb_refl.
    + destruct (String.eqb_spec k k'); [contradiction|exact IH].
Qed.

Lemma get_own_define_other o k k' v :
  k' <> k -> get_own k' (define k v o) = get_own k' o.
Proof.
  intros Hne. induction o as [|[k0 v0] o IH]; simpl.
  - destruct (String.eqb_spec k' k); [contradiction|reflexivity].
  - destruct (String.eqb_spec k k0) as [->|Hk]; simpl.
    + destruct (String.eqb_spec k' k0); [contradiction|reflexivity].
    + now rewrite IH.
Qed.

Lemma keys_define_own o k v :
  In k (map fst o) -> map fst (define k v o) = map fst o.
Proof.
  induction o as [|[k' v'] o IH]; simpl; [tauto|].
  intros H. destruct (String.eqb_spec k k') as [->|Hne]; simpl.
  - reflexivity.
  - f_equal. apply IH. destruct H as [E|H]; [congruence|exact H].
Qed.

Lemma keys_define_fresh o k v :
  ~ In k (map fst o) -> define k v o = o ++ [(k, v)].
Proof.
  induction o as [|[k' v'] o IH]; simpl; [reflexivity|].
  intros H. destruct (String.eqb_spec k k') as [->|Hne].
  - exfalso. apply H. now left.
  - f_equal. apply IH. intros E. apply H. now right.
Qed.

Lemma NoDup_define o k v :
  NoDup (map fst o) -> NoDup (map fst (define k v o)).
Proof.
  intros Hnd. destruct (in_dec string_dec k (map fst o)) as [Hin|Hout].
  - now rewrite keys_define_own.
  - rewrite keys_define_fresh by exact Hout.
    rewrite map_app. simpl.
    apply NoDup_rev in Hnd. rewrite <- (rev_involutive (map fst o ++ [k])).
    apply NoDup_rev. rewrite rev_app_distr. simpl. constructor.
    + now rewrite <- in_rev.
    + exact Hnd.
Qed.

Lemma In_keys_define o k k' v :
  In k' (map fst (define k v o)) <-> k' = k \/ In k' (map fst o).
Proof.
  destruct (in_dec string_dec k (map fst o)) as [Hin|Hout].
  - rewrite keys_define_own by exact Hin. split; [tauto|].
    intros [->|H]; assumption.
  - rewrite keys_define_fresh by exact Hout.
    rewrite map_app, in_app_iff. simpl. intuition congruence.
Qed.

(** *** Enumeration order *)

Lemma insert_index_Permutation n (kv : string * V) l :
  Permutation (insert_index n kv l) ((n, kv) :: l).
Proof.
  induction l as [|[m kv'] l IH]; simpl; [reflexivity|].
  destruct (n <? m)%N; [reflexivity|].
  rewrite IH. apply perm_swap.
Qed.

Lemma entries_Permutation o : Permutation (entries o) o.
Proof.
  unfold entries. induction o as [|kv o IH]; simpl; [reflexivity|].
  destruct (array_index (fst kv)) as [n|].
  - rewrite insert_index_Permutation. simpl. now constructor.
  - rewrite <- Permutation_middle. now constructor.
Qed.

Lemma NoDup_entries o : NoDup (map fst o) -> NoDup (map fst (entries o)).
Proof.
  intros H. eapply Permutation_NoDup; [|exact H].
  apply Permutation_map, Permutation_sym, entries_Permutation.
Qed.

Lemma get_own_entries o k :
  NoDup (map fst o) -> get_own k (entries o) = get_own k o.
Proof.
  intros H. symmetry. apply get_own_Permutation; [exact H|].
  apply Permutation_sym, entries_Permutation.
Qed.

Lemma In_keys_entries o k : In k (keys o) <-> In k (map fst o).
Proof.
  unfold keys. split; apply Permutation_in, Permutation_map.
  - apply entries_Permutation.
  - apply Permutation_sym, entries_Permutation.
Qed.

(** Without array-index keys, enumeration order is creation order. *)
Lemma entries_named o :
  (forall k, In k (map fst o) -> array_index k = None) -> entries o = o.
Proof.
  unfold entries. induction o as [|kv o IH]; simpl; [reflexivity|].
  intros H. rewrite (H (fst kv)) by now left.
  assert (IH' := IH (fun k Hk => H k (or_intror Hk))).
  destruct (index_entries o) as [|x l] eqn:E.
  - simpl in *. now f_equal.
  - exfalso. clear IH IH'.
    assert (Hin : forall p, In p (index_entries o) ->
                            array_index (fst (snd p)) <> None
                            /\ In (snd p) o).
    { clear. induction o as [|kv o IH]; simpl; [tauto|].
      intros p. destruct (array_index (fst kv)) as [n|] eqn:En.
      - intros Hp.
        apply (Permutation_in _ (insert_index_Permutation n kv _)) in Hp.
        destruct Hp as [<-|Hp]; simpl.
        + split; [congruence|now left].
        + destruct (IH p Hp). split; [assumption|now right].
      - intros Hp. destruct (IH p Hp). split; [assumption|now right]. }
    destruct (Hin x) as [Hx Hxo]; [rewrite E; now left|].
    apply Hx, H. right. now apply in_map.
Qed.

End Facts.

End JSObjectFacts.

(* ================================================================== *)
(** * Facts about sorting *)
(* ================================================================== *)

Module JSArrayFacts.

Section Facts.
Variable A : Type.
Variable before : A -> A -> bool.

Lemma insert_Permutation x l :
  Permutation (JSArray.insert before x l) (x :: l).
Proof.
  induction l as [|y l IH]; simpl; [reflexivity|].
  destruct (before y x); [|reflexivity].
  rewrite IH. apply perm_swap.
Qed.

Lemma sort_Permutation l : Permutation (JSArray.sort before l) l.
Proof.
  induction l as [|x l IH]; simpl; [reflexivity|].
  rewrite insert_Permutation. now constructor.
Qed.

Lemma In_sort x l : In x (JSArray.sort before l) <-> In x l.
Proof.
  split; apply Permutation_in;
    [|apply Permutation_sym]; apply sort_Permutation.
Qed.

(** When no element of the array has to come before another one, sorting
    changes nothing. *)
Lemma sort_all_equal l :
  (forall a b, In a l -> In b l -> before a b = false) ->
  JSArray.sort before l = l.
Proof.
  induction l as [|x l IH]; simpl; [reflexivity|].
  intros H. rewrite IH by (intros; apply H; now right).
  destruct l as [|y l]; simpl; [reflexivity|].
  rewrite H; [reflexivity|right; now left|now left].
Qed.

End Facts.

(** Sorting commutes with a map that respects the comparison. *)
Lemma sort_map (A B : Type) (f : A -> B)
      (before : A -> A -> bool) (before' : B -> B -> bool) (l : list A) :
  (forall a b, before' (f a) (f b) = before a b) ->
  JSArray.sort before' (map f l) = map f (JSArray.sort before l).
Proof.
  intros H. induction l as [|x l IH]; simpl; [reflexivity|].
  rewrite IH. generalize (JSArray.sort before l) as s.
  induction s as [|y s IHs]; simpl; [reflexivity|].
  rewrite H. destruct (before y x); simpl; [now rewrite IHs|reflexivity].
Qed.

(** ** Sorting with a consistent comparison function

    On the elements satisfying [P] the comparison is a strict weak order. *)
Section Consistent.
Variable A : Type.
Variable before : A -> A -> bool.
Variable P : A -> Prop.
Hypothesis before_asym :
  forall a b, P a -> P b -> before a b = true -> before b a = false.
Hypothesis before_negtrans :
  forall a b c, P a -> P b -> P c ->
                before a b = false -> before b c = false ->
                before a c = false.

Lemma Forall_insert x l :
  P x -> Forall P l -> Forall P (JSArray.insert before x l).
Proof.
  intros Hx Hl. eapply Permutation_Forall.
  - apply Permutation_sym, insert_Permutation.
  - now constructor.
Qed.

Lemma Forall_sort l : Forall P l -> Forall P (JSArray.sort before l).
Proof.
  intros Hl. eapply Permutation_Forall;
    [apply Permutation_sym, sort_Permutation|exact Hl].
Qed.

Lemma insert_StronglySorted x l :
  P x -> Forall P l ->
  StronglySorted (fun a b => before b a = false) l ->
  StronglySorted (fun a b => before b a = false)
                 (JSArray.insert before x l).
Proof.
  intros Hx Hl Hs. induction Hs as [|y l Hs IH Hy]; simpl.
  - repeat constructor.
  - inversion Hl as [|? ? Py Pl]; subst.
    destruct (before y x) eqn:E.
    + constructor; [now apply IH|].
      eapply Permutation_Forall;
        [apply Permutation_sym, insert_Permutation|].
      constructor; [now apply before_asym|exact Hy].
    + constructor; [now constructor|].
      constructor; [exact E|].
      rewrite Forall_forall in *. intros z Hz.
      apply (@before_negtrans z y x); auto.
Qed.

Lemma sort_StronglySorted l :
  Forall P l ->
  StronglySorted (fun a b => before b a = false) (JSArray.sort before l).
Proof.
  induction l as [|x l IH]; simpl; intros Hl; [constructor|].
  inversion Hl; subst.
  apply insert_StronglySorted; auto using Forall_sort.
Qed.

(** Stability: among the elements tied with [x0] the sort changes
    nothing. *)
Lemma insert_stable x0 x l :
  P x0 -> P x -> Forall P l ->
  filter (fun y => negb (before x0 y) && negb (before y x0))
         (JSArray.insert before x l)
  = filter (fun y => negb (before x0 y) && negb (before y x0)) (x :: l).
Proof.
  intros H0 Hx Hl. induction Hl as [|y l Py Pl IH]; [reflexivity|].
  cbn [JSArray.insert]. destruct (before y x) eqn:E; [|reflexivity].
  cbn [filter] in *. rewrite IH.
  destruct (negb (before x0 x) && negb (before x x0)) eqn:Ex;
    [|reflexivity].
  destruct (negb (before x0 y) && negb (before y x0)) eqn:Ey;
    [|reflexivity].
  exfalso.
  apply andb_true_iff in Ex, Ey.
  rewrite !negb_true_iff in Ex, Ey.
  destruct Ex as [Ex1 Ex2], Ey as [Ey1 Ey2].
  rewrite (@before_negtrans y x0 x) in E; auto. discriminate.
Qed.

Lemma sort_stable x0 l :
  P x0 -> Forall P l ->
  filter (fun y => negb (before x0 y) && negb (before y x0))
         (JSArray.sort before l)
  = filter (fun y => negb (before x0 y) && negb (before y x0)) l.
Proof.
  intros H0. induction l as [|x l IH]; intros Hl; [reflexivity|].
  inversion Hl; subst. cbn [JSArray.sort fold_right].
  fold (JSArray.sort before l).
  rewrite insert_stable; auto using Forall_sort.
  cbn [filter]. now rewrite IH.
Qed.

End Consistent.

(** Two comparisons that agree on the elements of the array sort it alike. *)
Lemma sort_ext (A : Type) (before before' : A -> A -> bool) (l : list A) :
  (forall a b, In a l -> In b l -> before a b = before' a b) ->
  JSArray.sort before l = JSArray.sort before' l.
Proof.
  induction l as [|x l IH]; simpl; intros H; [reflexivity|].
  rewrite <- IH by (intros; apply H; now right).
  assert (Hs : forall y, In y (JSArray.sort before l) -> In y l)
    by (intros y; apply In_sort).
  revert Hs. generalize (JSArray.sort before l) as s.
  induction s as [|y s IHs]; simpl; intros Hs; [reflexivity|].
  rewrite <- H; [|right; apply Hs; now left|now left].
  destruct (before y x); [|reflexivity].
  f_equal. apply IHs. intros z Hz. apply Hs. now right.
Qed.

End JSArrayFacts.

(* ================================================================== *)
(** * Facts about the aggregation *)
(* ================================================================== *)

Module AggregateFacts.

Import JSObjectFacts.

Implicit Types (acc : obj (Lang jsint)) (repoCount : Z).
Implicit Types (prev : LanguageEdge) (edges : list LanguageEdge).

Lemma aggregate_state_snoc edges prev :
  aggregate_state (edges ++ [prev]) = reducer (aggregate_state edges) prev.
Proof. unfold aggregate_state. now rewrite fold_left_app. Qed.

(** The three cases of the lookup [acc[normalizedName]]. *)
Lemma reducer_cases acc repoCount prev :
  let k := normalizedName prev in
  exists langSize repoCount',
    reducer (acc, repoCount) prev
    = (define k {| name := k; color := normalizedColor prev;
                   size := langSize; count := repoCount' |} (spread acc),
       repoCount')
    /\ match get_own k acc with
       | Some entry =>
           langSize = int_add (Int (edge_size prev)) (size entry)
           /\ repoCount' = (repoCount + 1)%Z
       | None =>
           if inherited k
           then langSize = IntNaN /\ repoCount' = (repoCount + 1)%Z
           else langSize = Int (edge_size prev) /\ repoCount' = 1%Z
       end.
Proof.
  intros k. unfold reducer, get. fold k.
  destruct (get_own k acc) as [entry|].
  - eexists _, _. split; [reflexivity|]. split; reflexivity.
  - destruct (inherited k).
    + eexists _, _. split; [reflexivity|]. split; reflexivity.
    + eexists _, _. split; [reflexivity|]. split; reflexivity.
Qed.

Lemma reducer_NoDup acc repoCount prev :
  NoDup (map fst acc) ->
  NoDup (map fst (fst (reducer (acc, repoCount) prev))).
Proof.
  intros H. destruct (reducer_cases acc repoCount prev)
    as (s & c & -> & _). simpl.
  apply NoDup_define. unfold spread. now apply NoDup_entries.
Qed.

Lemma reducer_get_own_other acc repoCount prev k :
  NoDup (map fst acc) -> k <> normalizedName prev ->
  get_own k (fst (reducer (acc, repoCount) prev)) = get_own k acc.
Proof.
  intros H Hk. destruct (reducer_cases acc repoCount prev)
    as (s & c & -> & _). simpl.
  rewrite get_own_define_other by exact Hk.
  unfold spread. now apply get_own_entries.
Qed.

Lemma aggregate_NoDup edges : NoDup (map fst (aggregate edges)).
Proof.
  unfold aggregate. induction edges as [|prev edges IH] using rev_ind.
  - constructor.
  - rewrite aggregate_state_snoc.
    destruct (aggregate_state edges) as [acc c]. now apply reducer_NoDup.
Qed.

Lemma edges_of_snoc k edges prev :
  edges_of k (edges ++ [prev])
  = edges_of k edges
    ++ (if String.eqb (normalizedName prev) k then [prev] else []).
Proof. unfold edges_of. now rewrite filter_app. Qed.

Lemma total_size_snoc edges prev :
  total_size (edges ++ [prev]) = (edge_size prev + total_size edges)%Z.
Proof.
  unfold total_size. induction edges as [|e edges IH]; simpl; [lia|].
  rewrite IH. lia.
Qed.

(** What the accumulator holds for a key that [Object.prototype] does not
    define: nothing as long as no edge had that canonical name, afterwards the
    sum of the sizes of the edges that had it. *)
Lemma aggregate_get_own edges k :
  inherited k = false ->
  match get_own k (aggregate edges) with
  | Some entry =>
      edges_of k edges <> []
      /\ name entry = k
      /\ size entry = Int (total_size (edges_of k edges))
  | None => edges_of k edges = []
  end.
Proof.
  intros Hk. unfold aggregate.
  induction edges as [|prev edges IH] using rev_ind; [reflexivity|].
  rewrite aggregate_state_snoc, edges_of_snoc.
  assert (Hnd := aggregate_NoDup edges). unfold aggregate in Hnd.
  destruct (aggregate_state edges) as [acc c]. simpl in IH, Hnd.
  destruct (String.eqb_spec (normalizedName prev) k) as [E|E].
  - destruct (reducer_cases acc c prev) as (s & c' & -> & Hs). simpl.
    rewrite E in *. rewrite get_own_define_same. simpl.
    split; [now destruct (edges_of k edges)|]. split; [reflexivity|].
    rewrite total_size_snoc. destruct (get_own k acc) as [entry|].
    + destruct Hs as [-> _]. destruct IH as (_ & _ & ->). reflexivity.
    + rewrite Hk in Hs. destruct Hs as [-> _]. rewrite IH.
      unfold total_size. simpl. f_equal. lia.
  - rewrite reducer_get_own_other by (auto; congruence).
    now rewrite app_nil_r.
Qed.

(** A key inherited from [Object.prototype] passes for an existing entry
    from the first edge on, and its size is never a number. *)
Lemma aggregate_get_own_inherited edges k entry :
  inherited k = true ->
  get_own k (aggregate edges) = Some entry -> size entry = IntNaN.
Proof.
  intros Hk. unfold aggregate. revert entry.
  induction edges as [|prev edges IH] using rev_ind; [discriminate|].
  intros entry. rewrite aggregate_state_snoc.
  assert (Hnd := aggregate_NoDup edges). unfold aggregate in Hnd.
  destruct (aggregate_state edges) as [acc c]. simpl in IH, Hnd.
  destruct (String.eqb_spec (normalizedName prev) k) as [E|E].
  - destruct (reducer_cases acc c prev) as (s & c' & -> & Hs). simpl.
    rewrite E in *. rewrite get_own_define_same. intros [= <-]. simpl.
    destruct (get_own k acc) as [old|].
    + destruct Hs as [-> _]. now rewrite (IH old eq_refl).
    + rewrite Hk in Hs. now destruct Hs.
  - rewrite reducer_get_own_other by (auto; congruence). apply IH.
Qed.

(** The counter is at least 1 after the first edge, and so is every stored
    count. *)
Lemma aggregate_count_pos edges :
  (0 <= snd (aggregate_state edges))%Z
  /\ forall k entry, In (k, entry) (aggregate edges) -> (1 <= count entry)%Z.
Proof.
  unfold aggregate. induction edges as [|prev edges IH] using rev_ind.
  - simpl. split; [lia|tauto].
  - rewrite aggregate_state_snoc.
    assert (Hnd := aggregate_NoDup edges). unfold aggregate in Hnd.
    destruct (aggregate_state edges) as [acc c]. simpl in IH, Hnd.
    destruct IH as [Hc Hall].
    destruct (reducer_cases acc c prev) as (s & c' & Hred & Hs).
    assert (Hc' : (1 <= c')%Z).
    { destruct (get_own (normalizedName prev) acc);
        [|destruct (inherited (normalizedName prev))]; lia. }
    rewrite Hred. simpl. split; [lia|].
    intros k entry Hin.
    destruct (String.eqb_spec k (normalizedName prev)) as [->|Hne].
    + apply In_get_own in Hin.
      * rewrite get_own_define_same in Hin. now injection Hin as <-.
      * apply NoDup_define. unfold spread. now apply NoDup_entries.
    + apply In_get_own in Hin.
      * rewrite get_own_define_other in Hin by exact Hne.
        unfold spread in Hin. rewrite get_own_entries in Hin by exact Hnd.
        apply (Hall k). now apply get_own_In.
      * apply NoDup_define. unfold spread. now apply NoDup_entries.
Qed.

(** The accumulator holds exactly the canonical names visited. *)
Lemma In_keys_aggregate edges k :
  In k (map fst (aggregate edges)) <-> In k (map normalizedName edges).
Proof.
  unfold aggregate. induction edges as [|prev edges IH] using rev_ind.
  - simpl. tauto.
  - rewrite aggregate_state_snoc.
    destruct (aggregate_state edges) as [acc c]. simpl in IH.
    destruct (reducer_cases acc c prev) as (s & c' & -> & _). simpl.
    rewrite In_keys_define. unfold spread. fold (keys acc).
    rewrite In_keys_entries, IH, map_app, in_app_iff. simpl.
    intuition congruence.
Qed.

(** Every entry stems from a visited edge with that canonical name, and
    carries the name and the colour computed for such an edge. *)
Lemma aggregate_entry_origin edges k entry :
  get_own k (aggregate edges) = Some entry ->
  exists prev, In prev edges /\ normalizedName prev = k
               /\ name entry = k /\ color entry = normalizedColor prev.
Proof.
  unfold aggregate. revert entry.
  induction edges as [|prev edges IH] using rev_ind; [discriminate|].
  intros entry. rewrite aggregate_state_snoc.
  assert (Hnd := aggregate_NoDup edges). unfold aggregate in Hnd.
  destruct (aggregate_state edges) as [acc c]. simpl in IH, Hnd.
  destruct (String.eqb_spec k (normalizedName prev)) as [->|E].
  - destruct (reducer_cases acc c prev) as (s & c' & -> & _). simpl.
    rewrite get_own_define_same. intros [= <-]. exists prev.
    rewrite in_app_iff. simpl. tauto.
  - rewrite reducer_get_own_other by assumption.
    intros H. destruct (IH entry H) as (p & Hp & Hrest).
    exists p. rewrite in_app_iff. tauto.
Qed.

End AggregateFacts.

(* ================================================================== *)
(** * Facts about binary64 numbers *)
(* ================================================================== *)

Module FloatFacts.

Local Open Scope Z_scope.
Local Unset Implicit Arguments.

Lemma float_of_SF (x : float) sx : Prim2SF x = sx -> x = SF2Prim sx.
Proof. intros <-. symmetry. apply SF2Prim_Prim2SF. Qed.

Lemma is_nan_true (x : float) : is_nan x = true -> x = nan.
Proof.
  unfold is_nan. rewrite eqb_spec. intros H.
  apply Prim2SF_inj. change (Prim2SF nan) with S754_nan.
  destruct (Prim2SF x) as [s|s| |s m e] eqn:E; try reflexivity;
    try (destruct s; discriminate).
  exfalso. unfold SFeqb, SFcompare in H.
  rewrite Z.compare_refl in H.
  change (Pos.compare_cont Eq m m) with (Pos.compare m m) in H.
  rewrite Pos.compare_refl in H. destruct s; discriminate.
Qed.

Lemma digits2_pos_xO52 m :
  Zpos (digits2_pos (m * 4503599627370496)) = Zpos (digits2_pos m) + 52.
Proof.
  rewrite Pos.mul_comm. cbn [Pos.mul digits2_pos]. lia.
Qed.

Lemma shr_52 m :
  SpecFloat.iter_pos shr_1 52
    {| shr_m := Zpos (m * 4503599627370496); shr_r := false; shr_s := false |}
  = {| shr_m := Zpos m; shr_r := false; shr_s := false |}.
Proof. rewrite Pos.mul_comm. reflexivity. Qed.

Lemma fexp_canonical m e :
  bounded prec emax m e = true ->
  fexp prec emax (Zpos (digits2_pos m) + e) = e /\ e <= 971.
Proof.
  unfold bounded, canonical_mantissa. intros H.
  apply andb_prop in H. destruct H as [H1 H2].
  apply Z.eqb_eq in H1. apply Z.leb_le in H2. split; [exact H1|].
  exact H2.
Qed.

(** Multiplying a binary64 value by 1 rounds nothing. *)
Lemma SFmul_one_r s m e :
  bounded prec emax m e = true ->
  SFmul prec emax (S754_finite s m e)
        (S754_finite false 4503599627370496 (-52))
  = S754_finite s m e.
Proof.
  intros Hb. destruct (fexp_canonical m e Hb) as [Hc He].
  unfold SFmul, binary_round_aux, shr_fexp.
  unfold Zdigits2 at 1. rewrite digits2_pos_xO52.
  replace (Zpos (digits2_pos m) + 52 + (e + -52))
    with (Zpos (digits2_pos m) + e) by lia.
  rewrite Hc.
  replace (e - (e + -52)) with 52 by lia.
  unfold shr at 1. cbn [shr_record_of_loc]. rewrite !shr_52.
  cbn [shr_m loc_of_shr_record round_nearest_even shr_record_of_loc].
  unfold Zdigits2.
  replace (Zpos (digits2_pos m) + (e + -52 + 52))
    with (Zpos (digits2_pos m) + e) by lia.
  rewrite Hc.
  replace (e - (e + -52 + 52)) with 0 by lia.
  cbn [shr shr_m].
  replace (e + -52 + 52) with e by lia.
  replace (e <=? emax - prec) with true
    by (symmetry; apply Z.leb_le; exact He).
  now rewrite xorb_false_r.
Qed.

Lemma mul_one_r (x : number) : mul x one = x.
Proof.
  unfold mul. apply Prim2SF_inj. rewrite mul_spec.
  change (Prim2SF one) with (S754_finite false 4503599627370496 (-52)).
  pose proof (Prim2SF_valid x) as Hv.
  destruct (Prim2SF x) as [s|s| |s m e]; try reflexivity.
  - cbn. now rewrite xorb_false_r.
  - cbn. now rewrite xorb_false_r.
  - now apply SFmul_one_r.
Qed.


Lemma mul_NaN_l (x : number) : mul NaN x = NaN.
Proof.
  unfold mul, NaN. apply Prim2SF_inj. rewrite mul_spec. reflexivity.
Qed.


(** *** Integers below 2^53 *)

Lemma digits2_pos_log2 p : Zpos (digits2_pos p) = Z.log2 (Zpos p) + 1.
Proof.
  assert (H : forall q, digits2_pos q = Pos.size q)
    by (induction q; simpl; congruence).
  destruct p; simpl; rewrite ?H; lia.
Qed.

Lemma iter_xO_pow2 p k : Zpos (Pos.iter xO p k) = Zpos p * 2 ^ Zpos k.
Proof.
  induction k using Pos.peano_ind.
  - simpl. lia.
  - rewrite Pos.iter_succ, Pos2Z.inj_xO, IHk, Pos2Z.inj_succ, Z.pow_succ_r;
      lia.
Qed.

Lemma shr_0 r e : shr r e 0 = (r, e).
Proof. reflexivity. Qed.

(** The binary64 value of a positive integer below 2^53: its digits moved
    to the top of the 53-bit mantissa, nothing rounded. *)
Lemma normalize_small p :
  Zpos p < 2 ^ 53 ->
  exists m,
    binary_normalize prec emax (Zpos p) 0 false
    = S754_finite false m (Zpos (digits2_pos p) - 53)
    /\ Zpos m = Zpos p * 2 ^ (53 - Zpos (digits2_pos p))
    /\ Zpos (digits2_pos m) = 53.
Proof.
  intros Hp.
  assert (Hd : Zpos (digits2_pos p) <= 53).
  { rewrite digits2_pos_log2.
    assert (Z.log2 (Zpos p) < 53) by (apply Z.log2_lt_pow2; lia). lia. }
  set (d := Zpos (digits2_pos p)) in *.
  assert (Hf : fexp prec emax (d + 0) = d - 53).
  { unfold fexp, SpecFloat.emin, prec, emax. unfold d. lia. }
  unfold binary_normalize, binary_round, shl_align.
  fold d. rewrite Hf.
  assert (Haux : forall m, Zpos (digits2_pos m) = 53 ->
            binary_round_aux prec emax false (Zpos m) (d - 53) loc_Exact
            = S754_finite false m (d - 53)).
  { intros m Hm. unfold binary_round_aux, shr_fexp.
    unfold Zdigits2 at 1. rewrite Hm.
    assert (Hf' : fexp prec emax (53 + (d - 53)) - (d - 53) = 0).
    { unfold fexp, SpecFloat.emin, prec, emax. unfold d. lia. }
    rewrite Hf', shr_0.
    cbn [shr_record_of_loc shr_m loc_of_shr_record round_nearest_even].
    unfold Zdigits2. rewrite Hm, Hf', shr_0. cbn [shr_m].
    replace (d - 53 <=? emax - prec) with true; [reflexivity|].
    symmetry. apply Z.leb_le. unfold emax, prec. lia. }
  destruct (d - 53 - 0) as [|k|k] eqn:E.
  - assert (Hd0 : d - 53 = 0) by lia. rewrite Hd0 in *.
    exists p. cbv beta iota.
    assert (Hdp : Zpos (digits2_pos p) = 53) by (fold d; lia).
    split; [now apply Haux|]. split; [|exact Hdp].
    replace (53 - d) with 0 by lia. lia.
  - lia.
  - assert (Hm : Zpos (Pos.iter xO p k) = Zpos p * 2 ^ (53 - d)).
    { rewrite iter_xO_pow2. f_equal. f_equal. lia. }
    assert (Hdm : Zpos (digits2_pos (Pos.iter xO p k)) = 53).
    { rewrite digits2_pos_log2, Hm, Z.log2_mul_pow2 by lia.
      pose proof (digits2_pos_log2 p) as H. fold d in H. lia. }
    exists (Pos.iter xO p k). split; [|split; assumption].
    now apply Haux.
Qed.

Lemma normalize_small_valid p :
  Zpos p < 2 ^ 53 ->
  valid_binary (binary_normalize prec emax (Zpos p) 0 false) = true.
Proof.
  intros Hp. destruct (normalize_small p Hp) as (m & -> & _ & Hm).
  unfold SpecFloat.valid_binary, bounded, canonical_mantissa.
  rewrite Hm. apply andb_true_intro. split.
  - apply Z.eqb_eq. unfold fexp, SpecFloat.emin, prec, emax.
    pose proof (Pos2Z.is_pos (digits2_pos p)). lia.
  - apply Z.leb_le. unfold emax, prec.
    assert (Zpos (digits2_pos p) <= 53).
    { rewrite digits2_pos_log2.
      assert (Z.log2 (Zpos p) < 53) by (apply Z.log2_lt_pow2; lia). lia. }
    lia.
Qed.

Lemma normalize_small_le p q :
  Zpos p <= Zpos q -> Zpos q < 2 ^ 53 ->
  SFleb (binary_normalize prec emax (Zpos p) 0 false)
        (binary_normalize prec emax (Zpos q) 0 false) = true.
Proof.
  intros Hpq Hq.
  destruct (normalize_small p) as (mp & -> & Hmp & _); [lia|].
  destruct (normalize_small q) as (mq & -> & Hmq & _); [lia|].
  unfold SFleb, SFcompare.
  assert (Hlog : Z.log2 (Zpos p) <= Z.log2 (Zpos q))
    by (apply Z.log2_le_mono; lia).
  rewrite !digits2_pos_log2 in *.
  destruct (Z.compare_spec (Z.log2 (Zpos p) + 1 - 53)
                           (Z.log2 (Zpos q) + 1 - 53)) as [E|E|E];
    try reflexivity; [|lia].
  assert (Elog : Z.log2 (Zpos p) = Z.log2 (Zpos q)) by lia.
  rewrite Elog in Hmp.
  assert (Hm : Zpos mp <= Zpos mq).
  { rewrite Hmp, Hmq. apply Z.mul_le_mono_nonneg_r; [|lia].
    apply Z.pow_nonneg. lia. }
  change (Pos.compare_cont Eq mp mq) with (Pos.compare mp mq).
  destruct (Pos.compare_spec mp mq); try reflexivity. lia.
Qed.

(** On the integers from 0 up to 2^53 the conversion to Numbers keeps the
    order. *)
Lemma of_int_monotone x y :
  0 <= x <= y -> y < 2 ^ 53 -> le (of_int (Int x)) (of_int (Int y)).
Proof.
  intros [Hx Hxy] Hy. unfold le. rewrite leb_spec. unfold of_int.
  destruct x as [|p|p]; [|  |lia].
  - destruct y as [|q|q]; [reflexivity| |lia].
    change (Prim2SF (SF2Prim (binary_normalize prec emax 0 0 false)))
      with (S754_zero false).
    rewrite Prim2SF_SF2Prim by (now apply normalize_small_valid).
    destruct (normalize_small q Hy) as (m & -> & _). reflexivity.
  - destruct y as [|q|q]; [lia| |lia].
    rewrite !Prim2SF_SF2Prim by (apply normalize_small_valid; lia).
    now apply normalize_small_le.
Qed.

(** *** The sign of a difference *)

Lemma shr_1_m r : 0 <= shr_m r -> shr_m (shr_1 r) = shr_m r / 2.
Proof.
  destruct r as [m rb sb]. cbn [shr_m]. intros Hm.
  destruct m as [|[p|p|]|p]; cbn [shr_1 shr_m]; try reflexivity; try lia.

  - apply (Z.div_unique _ 2 _ 1); lia.
  - apply (Z.div_unique _ 2 _ 0); lia.
Qed.

Lemma iter_shr_1_m n : forall r,
  0 <= shr_m r ->
  shr_m (SpecFloat.iter_pos shr_1 n r) = shr_m r / 2 ^ Zpos n.
Proof.
  induction n as [n IH|n IH|]; intros r Hr; cbn [SpecFloat.iter_pos].
  - assert (H1 : 0 <= shr_m (shr_1 r)).
    { rewrite shr_1_m by exact Hr. apply Z.div_pos; lia. }
    assert (H2 : 0 <= shr_m (SpecFloat.iter_pos shr_1 n (shr_1 r))).
    { rewrite IH by exact H1. apply Z.div_pos; [exact H1|].
      apply Z.pow_pos_nonneg; lia. }
    rewrite IH, IH, shr_1_m by assumption.
    rewrite !Z.div_div by (try apply Z.pow_pos_nonneg; lia).
    f_equal. replace (Zpos n~1) with (1 + Zpos n + Zpos n) by lia.
    rewrite !Z.pow_add_r, Z.pow_1_r by lia. ring.
  - assert (H2 : 0 <= shr_m (SpecFloat.iter_pos shr_1 n r)).
    { rewrite IH by exact Hr. apply Z.div_pos; [exact Hr|].
      apply Z.pow_pos_nonneg; lia. }
    rewrite IH, IH by assumption.
    rewrite !Z.div_div by (try apply Z.pow_pos_nonneg; lia).
    f_equal. replace (Zpos n~0) with (Zpos n + Zpos n) by lia.
    rewrite Z.pow_add_r by lia. ring.
  - rewrite shr_1_m by exact Hr. reflexivity.
Qed.

Lemma shr_record_of_loc_m m l : shr_m (shr_record_of_loc m l) = m.
Proof. destruct l as [|[| |]]; reflexivity. Qed.

(** One rounding shift keeps a positive mantissa positive. *)
Lemma shr_fexp_pos m e l :
  -1074 <= e ->
  0 < shr_m (fst (shr_fexp prec emax (Zpos m) e l))
  /\ -1074 <= snd (shr_fexp prec emax (Zpos m) e l).
Proof.
  intros He. unfold shr_fexp, Zdigits2.
  set (n := fexp prec emax (Zpos (digits2_pos m) + e) - e).
  destruct n as [|k|k] eqn:En; cbn [shr fst snd].
  - rewrite shr_record_of_loc_m. lia.
  - rewrite iter_shr_1_m by (rewrite shr_record_of_loc_m; lia).
    rewrite shr_record_of_loc_m. split; [|lia].
    assert (Hk : Zpos k = Z.log2 (Zpos m) - 52).
    { subst n. rewrite digits2_pos_log2 in En.
      unfold fexp, SpecFloat.emin, prec, emax in En. lia. }
    apply Z.div_str_pos. split; [apply Z.pow_pos_nonneg; lia|].
    rewrite Hk.
    pose proof (Z.log2_spec (Zpos m) ltac:(lia)) as [Hlo _].
    apply Z.le_trans with (2 ^ Z.log2 (Zpos m)); [|exact Hlo].
    apply Z.pow_le_mono_r; lia.
  - rewrite shr_record_of_loc_m. lia.
Qed.

Lemma round_nearest_even_pos m l : 0 < m -> 0 < round_nearest_even m l.
Proof.
  intros Hm. destruct l as [|[| |]]; cbn [round_nearest_even]; try lia.
  destruct (Z.even m); lia.
Qed.

(** Rounding a non-zero value gives a non-zero value of the same sign, or
    an infinity of that sign. *)
Lemma binary_round_aux_sign sx m e :
  -1074 <= e ->
  (exists m' e',
      binary_round_aux prec emax sx (Zpos m) e loc_Exact
      = S754_finite sx m' e')
  \/ binary_round_aux prec emax sx (Zpos m) e loc_Exact = S754_infinity sx.
Proof.
  intros He. unfold binary_round_aux.
  destruct (shr_fexp_pos m e loc_Exact He) as [H1 H1e].
  destruct (shr_fexp prec emax (Zpos m) e loc_Exact) as [mrs' e'].
  cbn [fst snd] in H1, H1e.
  pose proof (round_nearest_even_pos (shr_m mrs') (loc_of_shr_record mrs') H1)
    as Hr.
  destruct (round_nearest_even (shr_m mrs') (loc_of_shr_record mrs'))
    as [|m1|m1]; try lia.
  destruct (shr_fexp_pos m1 e' loc_Exact H1e) as [H2 _].
  destruct (shr_fexp prec emax (Zpos m1) e' loc_Exact) as [mrs'' e''].
  cbn [fst] in H2.
  destruct (shr_m mrs'') as [|m2|m2]; try lia.
  destruct (e'' <=? emax - prec); [left; eauto|now right].
Qed.

Lemma binary_round_sign sx m e :
  -1074 <= e ->
  (exists m' e', binary_round prec emax sx m e = S754_finite sx m' e')
  \/ binary_round prec emax sx m e = S754_infinity sx.
Proof.
  intros He. unfold binary_round, shl_align.
  set (f := fexp prec emax (Zpos (digits2_pos m) + e)).
  assert (Hf : -1074 <= f).
  { unfold f, fexp, SpecFloat.emin, prec, emax. lia. }
  destruct (f - e); now apply binary_round_aux_sign.
Qed.

(** The sign of the binary64 value of [d * 2 ^ e]. *)
Lemma normalize_ltb_zero d e :
  -1074 <= e ->
  SFltb (binary_normalize prec emax d e false) (S754_zero false) = (d <? 0).
Proof.
  intros He. destruct d as [|p|p]; cbn [binary_normalize].
  - reflexivity.
  - destruct (binary_round_sign false p e He) as [(m' & e' & ->)| ->];
      reflexivity.
  - destruct (binary_round_sign true p e He) as [(m' & e' & ->)| ->];
      reflexivity.
Qed.

Lemma shl_align_value m e ez :
  ez <= e -> Zpos (fst (shl_align m e ez)) = Zpos m * 2 ^ (e - ez).
Proof.
  intros H. unfold shl_align. destruct (ez - e) as [|d|d] eqn:E;
    cbn [fst]; try lia.
  - replace (e - ez) with 0 by lia. lia.
  - rewrite iter_xO_pow2. f_equal. f_equal. lia.
Qed.

(** The aligned mantissa of a positive integer below 2^53. *)
Lemma aligned_small p ez :
  Zpos p < 2 ^ 53 -> ez <= Zpos (digits2_pos p) - 53 ->
  exists m,
    binary_normalize prec emax (Zpos p) 0 false
    = S754_finite false m (Zpos (digits2_pos p) - 53)
    /\ Zpos (fst (shl_align m (Zpos (digits2_pos p) - 53) ez))
       = Zpos p * 2 ^ (- ez).
Proof.
  intros Hp Hez. destruct (normalize_small p Hp) as (m & Hn & Hm & _).
  exists m. split; [exact Hn|].
  assert (Hd : Zpos (digits2_pos p) <= 53).
  { rewrite digits2_pos_log2.
    assert (Z.log2 (Zpos p) < 53) by (apply Z.log2_lt_pow2; lia). lia. }
  rewrite shl_align_value by exact Hez. rewrite Hm, <- Z.mul_assoc.
  rewrite <- Z.pow_add_r by lia. f_equal. f_equal. lia.
Qed.

Lemma SFsub_small_sign p q :
  Zpos p < 2 ^ 53 -> Zpos q < 2 ^ 53 ->
  SFltb (SFsub prec emax (binary_normalize prec emax (Zpos q) 0 false)
                         (binary_normalize prec emax (Zpos p) 0 false))
        (S754_zero false)
  = (Zpos q <? Zpos p).
Proof.
  intros Hp Hq.
  set (ez := Z.min (Zpos (digits2_pos q) - 53) (Zpos (digits2_pos p) - 53)).
  destruct (aligned_small q ez Hq) as (mq & -> & Eq); [unfold ez; lia|].
  destruct (aligned_small p ez Hp) as (mp & -> & Ep); [unfold ez; lia|].
  unfold SFsub. fold ez. cbn [cond_Zopp]. rewrite Eq, Ep.
  assert (Hez : -1074 <= ez <= 0).
  { assert (Zpos (digits2_pos p) <= 53).
    { rewrite digits2_pos_log2.
      assert (Z.log2 (Zpos p) < 53) by (apply Z.log2_lt_pow2; lia). lia. }
    pose proof (Pos2Z.is_pos (digits2_pos p)).
    pose proof (Pos2Z.is_pos (digits2_pos q)). unfold ez. lia. }
  rewrite normalize_ltb_zero by lia.
  assert (Hpow : 0 < 2 ^ (- ez)) by (apply Z.pow_pos_nonneg; lia).
  destruct (Z.ltb_spec (Zpos q) (Zpos p)) as [H|H].
  - apply Z.ltb_lt. nia.
  - apply Z.ltb_ge. nia.
Qed.

(** On the integers from 0 up to 2^53, [b - a < 0] exactly when [b < a]. *)
Lemma sub_small_sign a b :
  0 <= a < 2 ^ 53 -> 0 <= b < 2 ^ 53 ->
  lt0 (sub (of_int (Int b)) (of_int (Int a))) = (b <? a).
Proof.
  intros Ha Hb. unfold lt0, sub, of_int. rewrite ltb_spec, sub_spec.
  change (Prim2SF zero) with (S754_zero false).
  destruct a as [|p|p]; [| |lia]; (destruct b as [|q|q]; [| |lia]).
  - reflexivity.
  - change (Prim2SF (SF2Prim (binary_normalize prec emax 0 0 false)))
      with (S754_zero false).
    rewrite Prim2SF_SF2Prim by (apply normalize_small_valid; lia).
    destruct (normalize_small q) as (m & -> & _); [lia|]. reflexivity.
  - change (Prim2SF (SF2Prim (binary_normalize prec emax 0 0 false)))
      with (S754_zero false).
    rewrite Prim2SF_SF2Prim by (apply normalize_small_valid; lia).
    destruct (normalize_small p) as (m & -> & _); [lia|]. reflexivity.
  - rewrite !Prim2SF_SF2Prim by (apply normalize_small_valid; lia).
    apply SFsub_small_sign; lia.
Qed.

End FloatFacts.

(* ================================================================== *)
(** * Facts about [Math.pow] and the weighting *)
(* ================================================================== *)

Module WeightingFacts.

Import JSObjectFacts FloatFacts.
Local Unset Implicit Arguments.

Section Engine.

Variable pow_approx : number -> number -> number.

(** Steps 1 and 2 of Number::exponentiate: any base, NaN too, to the power
    0 is 1. *)
Lemma Math_pow_0 base : Math_pow pow_approx base zero = one.
Proof. reflexivity. Qed.

(** A power with the exponent 1 is its base. *)
Lemma Math_pow_1 base : Math_pow pow_approx base one = base.
Proof.
  unfold Math_pow.
  change (is_nan one) with false. change (is_zero one) with false.
  change (PrimFloat.ltb zero one) with true.
  change (is_odd_integer one) with true.
  change (is_infinity one) with false.
  change (is_integer one) with true.
  change (PrimFloat.eqb one one) with true.
  cbv beta iota zeta.
  destruct (is_nan base) eqn:En.
  - symmetry. now apply is_nan_true.
  - destruct (Prim2SF base) as [[|]|[|]| |s m e] eqn:E;
      try (now apply float_of_SF in E).
    + now rewrite andb_false_r.
    + now rewrite andb_false_r.
Qed.

(** NaN to a power other than 0 is NaN. *)
Lemma Math_pow_NaN exponent :
  is_zero exponent = false -> Math_pow pow_approx NaN exponent = NaN.
Proof.
  intros Hz. unfold Math_pow. rewrite Hz.
  now destruct (is_nan exponent).
Qed.

(** With the default weights the weighting leaves the size as it is. *)
Lemma weighted_size_default entry :
  weighted_size pow_approx one zero entry = of_int (size entry).
Proof.
  unfold weighted_size. now rewrite Math_pow_0, Math_pow_1, mul_one_r.
Qed.


Lemma get_own_weighting sw cw (o : obj (Lang jsint)) k :
  get_own k (weighting pow_approx sw cw o)
  = option_map (weigh pow_approx sw cw) (get_own k o).
Proof.
  unfold weighting. induction o as [|[k' e] o IH]; simpl; [reflexivity|].
  now destruct (String.eqb k k').
Qed.

Lemma keys_weighting sw cw (o : obj (Lang jsint)) :
  map fst (weighting pow_approx sw cw o) = map fst o.
Proof. unfold weighting. rewrite map_map. reflexivity. Qed.

End Engine.

End WeightingFacts.

(* ================================================================== *)
(** * Facts about the ranking *)
(* ================================================================== *)

Module RankFacts.

Import JSObjectFacts.

Section Rebuild.
Variable V : Type.
Implicit Types (o result : obj V) (l : list string).

(** The object rebuilt key by key in lines 155-158. *)
Lemma rebuild_get_own o l : forall result k e,
  (forall k e, get_own k result = Some e -> get_own k o = Some e) ->
  get_own k (fold_left (fun result key =>
                          match get_own key o with
                          | Some entry => assign key entry result
                          | None => result
                          end) l result) = Some e ->
  get_own k o = Some e.
Proof.
  induction l as [|key l IH]; simpl; intros result k e Hres.
  - apply Hres.
  - apply IH. clear k e. intros k e.
    destruct (get_own key o) as [entry|] eqn:E; [|apply Hres].
    unfold assign. destruct (String.eqb key "__proto__"); [apply Hres|].
    destruct (String.eqb_spec k key) as [->|Hne].
    + rewrite get_own_define_same. now intros [= <-].
    + rewrite get_own_define_other by exact Hne. apply Hres.
Qed.

Lemma rebuild_keeps o l : forall result k e,
  get_own k o = Some e -> get_own k result = Some e ->
  get_own k (fold_left (fun result key =>
                          match get_own key o with
                          | Some entry => assign key entry result
                          | None => result
                          end) l result) = Some e.
Proof.
  induction l as [|key l IH]; simpl; intros result k e Ho Hres.
  - exact Hres.
  - apply IH; [exact Ho|].
    destruct (get_own key o) as [entry|] eqn:E; [|exact Hres].
    unfold assign. destruct (String.eqb key "__proto__"); [exact Hres|].
    destruct (String.eqb_spec k key) as [->|Hne].
    + rewrite get_own_define_same. congruence.
    + now rewrite get_own_define_other.
Qed.

Lemma rebuild_complete o l : forall result k e,
  get_own k o = Some e -> In k l -> k <> "__proto__" ->
  get_own k (fold_left (fun result key =>
                          match get_own key o with
                          | Some entry => assign key entry result
                          | None => result
                          end) l result) = Some e.
Proof.
  induction l as [|key l IH]; simpl; intros result k e Ho Hin Hk; [tauto|].
  destruct (String.eqb_spec k key) as [<-|Hne].
  - apply rebuild_keeps; [exact Ho|]. rewrite Ho. unfold assign.
    destruct (String.eqb_spec k "__proto__"); [contradiction|].
    apply get_own_define_same.
  - apply IH; try assumption. destruct Hin; [congruence|assumption].
Qed.

End Rebuild.

Lemma topLangs_get_own (repoNodes : obj (Lang number)) k e :
  get_own k (topLangs repoNodes) = Some e -> get_own k repoNodes = Some e.
Proof. apply rebuild_get_own. discriminate. Qed.

(** Every entry except one under the key [__proto__] reaches the result. *)
Lemma topLangs_complete (repoNodes : obj (Lang number)) k e :
  get_own k repoNodes = Some e -> k <> "__proto__" ->
  get_own k (topLangs repoNodes) = Some e.
Proof.
  intros Ho Hk. apply rebuild_complete; try assumption.
  unfold sorted_keys. apply JSArrayFacts.In_sort, In_keys_entries.
  apply get_own_In in Ho. now apply (in_map fst) in Ho.
Qed.

(** *** The comparison of the ranking on exact sizes *)

Lemma size_before_exact x y zx zy :
  (0 <= zx < 2 ^ 53)%Z -> size (snd x) = of_int (Int zx) ->
  (0 <= zy < 2 ^ 53)%Z -> size (snd y) = of_int (Int zy) ->
  size_before x y = (zy <? zx)%Z.
Proof.
  intros Hx Ex Hy Ey. unfold size_before. rewrite Ex, Ey.
  now apply FloatFacts.sub_small_sign.
Qed.

Lemma size_before_asym x y :
  exact_size x -> exact_size y ->
  size_before x y = true -> size_before y x = false.
Proof.
  intros (zx & Hx & Ex) (zy & Hy & Ey).
  rewrite (@size_before_exact x y zx zy), (@size_before_exact y x zy zx)
    by assumption.
  intros H. apply Z.ltb_lt in H. apply Z.ltb_ge. lia.
Qed.

Lemma size_before_negtrans x y z :
  exact_size x -> exact_size y -> exact_size z ->
  size_before x y = false -> size_before y z = false ->
  size_before x z = false.
Proof.
  intros (zx & Hx & Ex) (zy & Hy & Ey) (zz & Hz & Ez).
  rewrite (@size_before_exact x y zx zy), (@size_before_exact y z zy zz),
    (@size_before_exact x z zx zz) by assumption.
  intros H1 H2. apply Z.ltb_ge in H1, H2. apply Z.ltb_ge. lia.
Qed.

Lemma size_before_false_le x y :
  exact_size x -> exact_size y ->
  size_before y x = false -> le (size (snd y)) (size (snd x)).
Proof.
  intros (zx & Hx & Ex) (zy & Hy & Ey).
  rewrite (@size_before_exact y x zy zx) by assumption.
  intros H. apply Z.ltb_ge in H. rewrite Ex, Ey.
  apply FloatFacts.of_int_monotone; lia.
Qed.

(** *** The result when no key is an array index or [__proto__] *)

Lemma rebuild_entries (o : obj (Lang number)) s : forall result,
  (forall kv, In kv s ->
              get_own (fst kv) o = Some (snd kv) /\ fst kv <> "__proto__") ->
  NoDup (map fst result ++ map fst s) ->
  fold_left (fun result key =>
               match get_own key o with
               | Some entry => assign key entry result
               | None => result
               end) (map fst s) result
  = result ++ s.
Proof.
  induction s as [|[k e] s IH]; simpl; intros result Hs Hnd.
  - now rewrite app_nil_r.
  - destruct (Hs (k, e) (or_introl eq_refl)) as [Hget Hk]. simpl in *.
    rewrite Hget. unfold assign.
    destruct (String.eqb_spec k "__proto__"); [contradiction|].
    rewrite keys_define_fresh.
    + rewrite IH.
      * now rewrite <- app_assoc.
      * intros kv Hkv. apply Hs. now right.
      * rewrite map_app, <- app_assoc. exact Hnd.
    + apply NoDup_remove_2 in Hnd. intros H. apply Hnd.
      apply in_or_app. now left.
Qed.

Lemma topLangs_named (w : obj (Lang number)) :
  NoDup (map fst w) ->
  (forall k, In k (map fst w) ->
             array_index k = None /\ k <> "__proto__") ->
  topLangs w = JSArray.sort size_before w
  /\ entries (topLangs w) = JSArray.sort size_before w.
Proof.
  intros Hnd Hk.
  assert (Hsize : forall x, In x w -> size_at w (fst x) = size (snd x)).
  { intros [k e] Hx. unfold size_at. simpl.
    now rewrite (In_get_own w k e Hnd Hx). }
  assert (Hkeys : sorted_keys w = map fst (JSArray.sort size_before w)).
  { unfold sorted_keys, keys.
    rewrite entries_named by (intros k H; now apply Hk).
    rewrite (JSArrayFacts.sort_map fst
               (fun x y => lt0 (lang_comparefn w (fst x) (fst y)))
               (fun a b => lt0 (lang_comparefn w a b)))
      by reflexivity.
    f_equal. apply JSArrayFacts.sort_ext. intros a b Ha Hb.
    unfold lang_comparefn, size_before. now rewrite !Hsize. }
  assert (Hperm := JSArrayFacts.sort_Permutation size_before w).
  assert (Htop : topLangs w = JSArray.sort size_before w).
  { unfold topLangs. rewrite Hkeys.
    rewrite rebuild_entries; [reflexivity| |].
    - intros [k e] Hin. apply JSArrayFacts.In_sort in Hin. simpl. split.
      + now apply In_get_own.
      + apply Hk. now apply (in_map fst) in Hin.
    - simpl. eapply Permutation_NoDup; [|exact Hnd].
      apply Permutation_map, Permutation_sym, Hperm. }
  split; [exact Htop|]. rewrite Htop. apply entries_named.
  intros k H. apply Hk. eapply Permutation_in; [|exact H].
  apply Permutation_map, Hperm.
Qed.

End RankFacts.

(* ================================================================== *)
(** * Facts about the exclusion *)
(* ================================================================== *)

Module ExclusionFacts.

Import JSObjectFacts.

Lemma assign_true_values names : forall (hide : obj bool),
  (forall k v, get_own k hide = Some v -> v = true) ->
  forall k v,
    get_own k (fold_left (fun hide repoName => assign repoName true hide)
                         names hide) = Some v ->
    v = true.
Proof.
  induction names as [|n names IH]; simpl; intros hide Hh; [exact Hh|].
  apply IH. intros k v. unfold assign.
  destruct (String.eqb n "__proto__"); [apply Hh|].
  destruct (String.eqb_spec k n) as [->|Hne].
  - rewrite get_own_define_same. congruence.
  - rewrite get_own_define_other by exact Hne. apply Hh.
Qed.

Lemma assign_true_keys names : forall (hide : obj bool) k,
  In k (map fst (fold_left (fun hide repoName => assign repoName true hide)
                           names hide))
  <-> (In k names /\ k <> "__proto__") \/ In k (map fst hide).
Proof.
  induction names as [|n names IH]; simpl; intros hide k; [tauto|].
  rewrite IH. unfold assign.
  destruct (String.eqb_spec n "__proto__") as [->|Hn].
  - intuition congruence.
  - rewrite In_keys_define. intuition congruence.
Qed.

Lemma inherited_proto : inherited "__proto__" = true.
Proof. reflexivity. Qed.

(** A repository is filtered out exactly when its name was excluded or is
    the name of a property of [Object.prototype]. *)
Lemma hidden_iff exclude_repo repo :
  hidden (repoToHide exclude_repo) repo = true
  <-> In (repo_name repo) (excluded_names exclude_repo)
      \/ inherited (repo_name repo) = true.
Proof.
  unfold hidden, get.
  destruct (get_own (repo_name repo) (repoToHide exclude_repo)) as [v|] eqn:E.
  - assert (v = true) as ->.
    { destruct exclude_repo as [names|]; [|discriminate].
      eapply assign_true_values; [|exact E]. discriminate. }
    split; [|reflexivity]. intros _. left.
    destruct exclude_repo as [names|]; [|discriminate].
    assert (H : In (repo_name repo) (map fst (repoToHide (Some names)))).
    { destruct (in_dec string_dec (repo_name repo)
                       (map fst (repoToHide (Some names)))) as [H|H];
        [exact H|]. apply get_own_None in H. congruence. }
    apply assign_true_keys in H. simpl in H. tauto.
  - apply get_own_None in E.
    destruct (inherited (repo_name repo)) eqn:Hi; [tauto|].
    split; [discriminate|]. intros [H|H]; [|discriminate].
    exfalso. apply E. destruct exclude_repo as [names|]; [|contradiction].
    apply assign_true_keys. left. split; [exact H|].
    intros Heq. rewrite Heq in Hi. discriminate.
Qed.

Lemma filter_Subseq (A : Type) (f : A -> bool) (l : list A) :
  Subseq (filter f l) l.
Proof.
  induction l as [|x l IH]; simpl; [constructor|].
  destruct (f x); now constructor.
Qed.

Lemma shown_repos_In nodes exclude_repo repo :
  In repo (shown_repos nodes exclude_repo)
  <-> In repo nodes
      /\ ~ In (repo_name repo) (excluded_names exclude_repo)
      /\ inherited (repo_name repo) = false.
Proof.
  unfold shown_repos, presort. rewrite filter_In, JSArrayFacts.In_sort.
  rewrite negb_true_iff, <- not_true_iff_false, hidden_iff.
  rewrite <- not_true_iff_false. tauto.
Qed.

End ExclusionFacts.

(* ================================================================== *)
(** * The properties of [fetchTopLanguages] *)
(* ================================================================== *)

Import JSObjectFacts AggregateFacts WeightingFacts RankFacts ExclusionFacts.

Unset Implicit Arguments.

(** ** The successful call *)

(** With a user name and a response without errors, the call fetches once,
    logs nothing and returns the languages computed with the weights given,
    1 and 0 when they are left out. *)
Lemma fetchTopLanguages_success
      (pow_approx : number -> number -> number)
      (wrapTextMultiline : string -> nat -> nat -> list string)
      (retryer : string -> error + AxiosResponse)
      login res exclude_repo size_weight count_weight :
  login <> EmptyString ->
  retryer login = inr res ->
  data_errors res = None ->
  run retryer (fetchTopLanguages pow_approx wrapTextMultiline
                                 (Some login) exclude_repo
                                 size_weight count_weight)
  = ([Fetched login],
     inr (languages pow_approx (data_nodes res) exclude_repo
                    match size_weight with Some w => w | None => one end
                    match count_weight with Some w => w | None => zero end)).
Proof.
  intros Hlogin Hres Herrors. unfold fetchTopLanguages.
  assert (truthy (Some login) = Some login) as ->.
  { destruct login; [contradiction|reflexivity]. }
  simpl. now rewrite Hres, Herrors.
Qed.

(** ** Errors *)

(** C6.  When [username] is absent or empty, the call throws
    [MissingParamError(["username"])] at once: whatever the retryer is, it is
    never invoked and nothing is logged. *)
Theorem missing_username_throws_before_fetch
        (pow_approx : number -> number -> number)
        (wrapTextMultiline : string -> nat -> nat -> list string)
        (retryer : string -> error + AxiosResponse)
        username exclude_repo size_weight count_weight :
  username = None \/ username = Some EmptyString ->
  fetchTopLanguages pow_approx wrapTextMultiline username exclude_repo
                    size_weight count_weight
  = Throw (MissingParamError ["username"])
  /\ run retryer (fetchTopLanguages pow_approx wrapTextMultiline
                                    username exclude_repo
                                    size_weight count_weight)
     = ([], inl (MissingParamError ["username"])).
Proof.
  intros [-> | ->]; split; reflexivity.
Qed.

Lemma missing_username_witness :
  (Some EmptyString = None \/ Some EmptyString = Some EmptyString)
  /\ run (fun _ => inl TypeError)
         (fetchTopLanguages (fun _ _ => NaN) (fun _ _ _ => [])
                            (Some EmptyString) (Some ["repo"]) None None)
     = ([], inl (MissingParamError ["username"])).
Proof.
  split; [now right|].
  apply (missing_username_throws_before_fetch (fun _ _ => NaN)
           (fun _ _ _ => []) (fun _ => inl TypeError)
           (Some EmptyString) (Some ["repo"]) None None).
  now right.
Defined.

(** C7, as stated, fails: a [NOT_FOUND] error whose message is present but
    empty gets the fallback message, not the message of the payload. *)
Lemma not_found_empty_message_counterexample :
  ~ (forall (wrapTextMultiline : string -> nat -> nat -> list string)
            (login : string) (res : AxiosResponse)
            (first : GraphQLError) (rest : list GraphQLError),
        login <> EmptyString ->
        data_errors res = Some (first :: rest) ->
        err_type first = Some "NOT_FOUND" ->
        snd (run (fun _ => inr res)
                 (fetchTopLanguages (fun _ _ => NaN) wrapTextMultiline
                                    (Some login)
                                    None None None))
        = inl (CustomError
                 (Some match err_message first with
                       | Some message => message
                       | None => "Could not fetch user."
                       end)
                 USER_NOT_FOUND)).
Proof.
  intros H.
  specialize (H (fun _ _ _ => []) "octocat"
                {| data_errors :=
                     Some [ {| err_type := Some "NOT_FOUND";
                               err_message := Some EmptyString |} ];
                   statusText := "OK";
                   data_nodes := [] |}
                {| err_type := Some "NOT_FOUND"; err_message := Some EmptyString |}
                []).
  simpl in H. specialize (H ltac:(discriminate) eq_refl eq_refl).
  discriminate H.
Qed.

(** C7, amended.  When the first error of the payload has type
    ["NOT_FOUND"], the call fetches once, logs the errors and throws a
    [CustomError] of type [USER_NOT_FOUND]; its message is the message of
    the payload when that is present and not empty, and
    ["Could not fetch user."] when it is absent or empty. *)
Theorem not_found_throws_user_not_found
        (pow_approx : number -> number -> number)
        (wrapTextMultiline : string -> nat -> nat -> list string)
        (retryer : string -> error + AxiosResponse)
        login res first rest exclude_repo size_weight count_weight :
  login <> EmptyString ->
  retryer login = inr res ->
  data_errors res = Some (first :: rest) ->
  err_type first = Some "NOT_FOUND" ->
  run retryer (fetchTopLanguages pow_approx wrapTextMultiline
                                 (Some login) exclude_repo
                                 size_weight count_weight)
  = ([Fetched login; Logged (first :: rest)],
     inl (CustomError
            (Some match err_message first with
                  | Some EmptyString | None => "Could not fetch user."
                  | Some message => message
                  end)
            USER_NOT_FOUND)).
Proof.
  intros Hlogin Hres Herrors Htype.
  unfold fetchTopLanguages.
  assert (truthy (Some login) = Some login) as ->.
  { destruct login; [contradiction|reflexivity]. }
  simpl. rewrite Hres, Herrors. simpl. rewrite Htype. simpl.
  unfold or_else, truthy.
  destruct (err_message first) as [[|c m]|]; reflexivity.
Qed.

Lemma not_found_witness :
  run (fun _ => inr {| data_errors :=
                         Some [ {| err_type := Some "NOT_FOUND";
                                   err_message := None |} ];
                       statusText := "OK";
                       data_nodes := [] |})
      (fetchTopLanguages (fun _ _ => NaN) (fun _ _ _ => [])
                         (Some "octocat") None None None)
  = ([Fetched "octocat";
      Logged [ {| err_type := Some "NOT_FOUND"; err_message := None |} ]],
     inl (CustomError (Some "Could not fetch user.") USER_NOT_FOUND)).
Proof.
  exact (not_found_throws_user_not_found (fun _ _ => NaN)
           (fun _ _ _ => [])
           (fun _ => inr {| data_errors :=
                              Some [ {| err_type := Some "NOT_FOUND";
                                        err_message := None |} ];
                            statusText := "OK";
                            data_nodes := [] |})
           "octocat"
           {| data_errors :=
                Some [ {| err_type := Some "NOT_FOUND";
                          err_message := None |} ];
              statusText := "OK";
              data_nodes := [] |}
           {| err_type := Some "NOT_FOUND"; err_message := None |}
           [] None None None
           ltac:(discriminate) eq_refl eq_refl eq_refl).
Defined.

(** ** Exclusion and pre-sort *)

(** C8.  When no repository carries a [size], every comparison of the
    pre-sort yields NaN, the pre-sort returns the list as it was, and the
    repositories left by the exclusion filter keep their relative order. *)
Theorem presort_without_size_is_noop nodes exclude_repo :
  (forall repo, In repo nodes -> repo_size repo = None) ->
  (forall a b, In a nodes -> In b nodes -> repo_comparefn a b = IntNaN)
  /\ presort nodes = nodes
  /\ shown_repos nodes exclude_repo
     = filter (fun repo => negb (hidden (repoToHide exclude_repo) repo)) nodes
  /\ Subseq (shown_repos nodes exclude_repo) nodes.
Proof.
  intros Hsize.
  assert (Hcmp : forall a b, In a nodes -> In b nodes ->
                             repo_comparefn a b = IntNaN).
  { intros a b Ha Hb. unfold repo_comparefn. now rewrite (Hsize b Hb). }
  assert (Hsort : presort nodes = nodes).
  { apply JSArrayFacts.sort_all_equal. intros a b Ha Hb.
    now rewrite Hcmp. }
  repeat split; try assumption.
  - unfold shown_repos. now rewrite Hsort.
  - unfold shown_repos. rewrite Hsort. apply filter_Subseq.
Qed.

Lemma presort_without_size_witness :
  let nodes := [ {| repo_name := "a"; repo_size := None; repo_edges := [] |};
                 {| repo_name := "b"; repo_size := None; repo_edges := [] |};
                 {| repo_name := "c"; repo_size := None; repo_edges := [] |} ]
  in
  presort nodes = nodes
  /\ shown_repos nodes (Some ["b"])
     = [ {| repo_name := "a"; repo_size := None; repo_edges := [] |};
         {| repo_name := "c"; repo_size := None; repo_edges := [] |} ].
Proof.
  intros nodes.
  destruct (presort_without_size_is_noop nodes (Some ["b"]))
    as (_ & Hsort & Hshown & _).
  - intros repo [<-|[<-|[<-|[]]]]; reflexivity.
  - split; [exact Hsort|]. rewrite Hshown. reflexivity.
Defined.

(** C10.  A repository named like a property of [Object.prototype]
    ("constructor", "toString", "hasOwnProperty", ...) is never among the
    repositories aggregated, whatever the exclusion list is and in particular
    when it is empty or absent; the result is the same whatever language
    edges such a repository carries. *)
Theorem prototype_named_repos_are_dropped pow_approx
        nodes exclude_repo size_weight count_weight
        (other_edges : RepositoryNode -> list LanguageEdge) :
  (forall repo, In repo nodes -> inherited (repo_name repo) = true ->
                ~ In repo (shown_repos nodes exclude_repo))
  /\ languages pow_approx
       (map (fun repo =>
               if inherited (repo_name repo)
               then {| repo_name := repo_name repo;
                       repo_size := repo_size repo;
                       repo_edges := other_edges repo |}
               else repo) nodes)
       exclude_repo size_weight count_weight
     = languages pow_approx nodes exclude_repo size_weight count_weight
  /\ inherited "constructor" = true
  /\ inherited "toString" = true
  /\ inherited "hasOwnProperty" = true
  /\ languages pow_approx [ {| repo_name := "constructor";
                    repo_size := None;
                    repo_edges :=
                      [ {| edge_size := 100;
                           edge_node := {| node_color := Some "#f1e05a";
                                           node_name := "JavaScript" |} |} ]
                 |} ]
               (Some []) size_weight count_weight
     = [].
Proof.
  split; [|split; [|repeat split]].
  - intros repo _ Hname Hin. apply shown_repos_In in Hin.
    destruct Hin as (_ & _ & Hin). congruence.
  - set (f := fun repo : RepositoryNode => _).
    unfold languages.
    enough (E : shown_repos (map f nodes) exclude_repo
                = shown_repos nodes exclude_repo) by now rewrite E.
    unfold shown_repos, presort.
    rewrite (JSArrayFacts.sort_map f
               (fun a b => int_lt0 (repo_comparefn a b))
               (fun a b => int_lt0 (repo_comparefn a b))).
    + generalize (JSArray.sort
                    (fun a b => int_lt0 (repo_comparefn a b)) nodes) as l.
      induction l as [|repo l IH]; simpl; [reflexivity|].
      assert (Hname : repo_name (f repo) = repo_name repo).
      { unfold f. now destruct (inherited (repo_name repo)). }
      assert (Hhid : hidden (repoToHide exclude_repo) (f repo)
                     = hidden (repoToHide exclude_repo) repo).
      { unfold hidden. now rewrite Hname. }
      rewrite Hhid.
      destruct (hidden (repoToHide exclude_repo) repo) eqn:E; simpl.
      * exact IH.
      * rewrite IH. f_equal. unfold f.
        destruct (inherited (repo_name repo)) eqn:Hi; [|reflexivity].
        exfalso. assert (H : hidden (repoToHide exclude_repo) repo = true)
          by (apply hidden_iff; now right).
        congruence.
    + intros a b. unfold repo_comparefn, f.
      destruct (inherited (repo_name a)), (inherited (repo_name b));
        reflexivity.
Qed.

Lemma prototype_named_repos_witness :
  let repo := {| repo_name := "toString";
                 repo_size := None;
                 repo_edges :=
                   [ {| edge_size := 7;
                        edge_node := {| node_color := None;
                                        node_name := "C" |} |} ] |} in
  ~ In repo (shown_repos [repo] None).
Proof.
  intros repo.
  destruct (prototype_named_repos_are_dropped (fun _ _ => NaN) [repo] None
                                              one zero
                                              (fun _ => []))
    as (H & _).
  apply H; [now left|reflexivity].
Defined.

(** ** Aggregation *)

(** C3.  Every visited edge named "Jupyter Notebook" is among the edges
    aggregated under "Python" and no entry is ever kept under
    "Jupyter Notebook"; the "Python" entry exists as soon as there is such an
    edge, its size before weighting is the sum over the edges named "Python"
    or "Jupyter Notebook", and in the aggregate as in the result its colour
    is "#3572A5" whatever colours the edges carry. *)
Theorem jupyter_notebook_counts_as_python pow_approx
        nodes exclude_repo size_weight count_weight :
  let edges := flatten_edges (shown_repos nodes exclude_repo) in
  (forall prev, In prev edges ->
                node_name (edge_node prev) = "Jupyter Notebook" ->
                normalizedName prev = "Python"
                /\ In prev (edges_of "Python" edges)
                /\ exists entry,
                     get_own "Python" (aggregate edges) = Some entry
                     /\ size entry
                        = Int (total_size (edges_of "Python" edges)))
  /\ get_own "Jupyter Notebook" (aggregate edges) = None
  /\ get_own "Jupyter Notebook"
             (languages pow_approx nodes exclude_repo
                        size_weight count_weight) = None
  /\ (forall entry, get_own "Python" (aggregate edges) = Some entry ->
                    name entry = "Python"
                    /\ color entry = Some "#3572A5")
  /\ (forall entry,
        get_own "Python" (languages pow_approx nodes exclude_repo size_weight
                                    count_weight) = Some entry ->
        name entry = "Python" /\ color entry = Some "#3572A5").
Proof.
  intros edges.
  assert (Hcanon : forall prev, normalizedName prev <> "Jupyter Notebook").
  { intros prev. unfold normalizedName.
    destruct (String.eqb_spec (node_name (edge_node prev))
                              "Jupyter Notebook"); [discriminate|assumption]. }
  assert (Hnone : get_own "Jupyter Notebook" (aggregate edges) = None).
  { destruct (get_own "Jupyter Notebook" (aggregate edges)) eqn:E;
      [|reflexivity].
    apply aggregate_entry_origin in E. destruct E as (p & _ & E & _).
    now apply Hcanon in E. }
  assert (Hagg : forall entry,
             get_own "Python" (aggregate edges) = Some entry ->
             name entry = "Python" /\ color entry = Some "#3572A5").
  { intros entry E. apply aggregate_entry_origin in E.
    destruct E as (p & _ & Hp & Hname & Hcolor). split; [exact Hname|].
    rewrite Hcolor. unfold normalizedColor. now rewrite Hp. }
  split; [|split; [|split; [|split]]]; try assumption.
  - intros prev Hin Hname.
    assert (Hp : normalizedName prev = "Python").
    { unfold normalizedName. now rewrite Hname. }
    assert (Hof : In prev (edges_of "Python" edges)).
    { unfold edges_of. apply filter_In. split; [exact Hin|].
      now rewrite Hp. }
    split; [exact Hp|]. split; [exact Hof|].
    pose proof (aggregate_get_own edges "Python" eq_refl) as H.
    destruct (get_own "Python" (aggregate edges)) as [entry|].
    + exists entry. split; [reflexivity|]. apply H.
    + rewrite H in Hof. destruct Hof.
  - destruct (get_own "Jupyter Notebook" (languages pow_approx _ _ _ _)) eqn:E;
      [|reflexivity].
    apply topLangs_get_own in E. rewrite get_own_weighting in E.
    fold edges in E. now rewrite Hnone in E.
  - intros entry E. apply topLangs_get_own in E.
    rewrite get_own_weighting in E. fold edges in E.
    destruct (get_own "Python" (aggregate edges)) as [e0|] eqn:E0;
      [|discriminate].
    injection E as <-. simpl. now apply Hagg.
Qed.

Lemma jupyter_notebook_witness :
  let jupyter := {| edge_size := 200;
                    edge_node := {| node_color := Some "#DA5B0B";
                                    node_name := "Jupyter Notebook" |} |} in
  let python := {| edge_size := 100;
                   edge_node := {| node_color := Some "#3572A5";
                                   node_name := "Python" |} |} in
  let nodes := [ {| repo_name := "A"; repo_size := None;
                    repo_edges := [jupyter] |};
                 {| repo_name := "B"; repo_size := None;
                    repo_edges := [python] |} ] in
  exists entry,
    get_own "Python" (aggregate (flatten_edges (shown_repos nodes None)))
    = Some entry
    /\ size entry = Int 300 /\ color entry = Some "#3572A5".
Proof.
  intros jupyter python nodes.
  destruct (jupyter_notebook_counts_as_python (fun _ _ => NaN) nodes None
                                              one zero)
    as (Hedge & _ & _ & Hcolor & _).
  destruct (Hedge jupyter) as (_ & _ & entry & Hget & Hsize).
  - right. now left.
  - reflexivity.
  - exists entry. split; [exact Hget|]. split; [exact Hsize|].
    now apply Hcolor.
Defined.

(** ** Weighting *)







(** ** Names and sums *)

Lemma flatten_edges_In nodes prev :
  In prev (flatten_edges nodes)
  <-> exists repo, In repo nodes /\ In prev (repo_edges repo).
Proof.
  unfold flatten_edges.
  assert (H : forall l acc,
             In prev (fold_left (fun acc curr => repo_edges curr ++ acc) l acc)
             <-> In prev acc
                 \/ exists repo, In repo l /\ In prev (repo_edges repo)).
  { induction l as [|r l IH]; simpl; intros acc.
    - split; [tauto|]. intros [H|(r & [] & _)]. exact H.
    - rewrite IH, in_app_iff. split.
      + intros [[H|H]|(r' & H1 & H2)]; eauto.
      + intros [H|(r' & [<-|H1] & H2)]; eauto. }
  rewrite H. simpl. split.
  - intros [[]|(repo & Hin & Hp)]. apply filter_In in Hin.
    exists repo. tauto.
  - intros (repo & Hin & Hp). right. exists repo. split; [|exact Hp].
    apply filter_In. split; [exact Hin|].
    destruct (repo_edges repo); [destruct Hp|reflexivity].
Qed.

(** Outside the names of [Object.prototype], the result has exactly the
    canonical names of the edges of the repositories that pass the filter,
    and each size before weighting is the sum over the edges with that
    canonical name.  The filter lets a repository pass when its name is
    neither excluded nor a name of [Object.prototype]. *)
Theorem languages_names_and_sums
        pow_approx nodes exclude_repo size_weight count_weight :
  let edges := flatten_edges (shown_repos nodes exclude_repo) in
  (forall prev,
      In prev edges
      <-> exists repo,
            In repo nodes
            /\ ~ In (repo_name repo) (excluded_names exclude_repo)
            /\ inherited (repo_name repo) = false
            /\ In prev (repo_edges repo))
  /\ (forall k,
         inherited k = false ->
         (In k (keys (languages pow_approx nodes exclude_repo
                                size_weight count_weight))
          <-> edges_of k edges <> []))
  /\ (forall k e0,
         inherited k = false ->
         get_own k (aggregate edges) = Some e0 ->
         size e0 = Int (total_size (edges_of k edges))).
Proof.
  intros edges. split; [|split].
  - intros prev. unfold edges. rewrite flatten_edges_In. split.
    + intros (repo & Hin & Hp). apply shown_repos_In in Hin.
      exists repo. tauto.
    + intros (repo & H1 & H2 & H3 & H4). exists repo.
      split; [|exact H4]. apply shown_repos_In. tauto.
  - intros k Hk.
    assert (Hproto : k <> "__proto__") by (intros ->; discriminate).
    pose proof (aggregate_get_own edges k Hk) as Hagg.
    rewrite In_keys_entries. split.
    + intros Hin.
      destruct (get_own k (languages pow_approx nodes exclude_repo size_weight
                                     count_weight)) as [e|] eqn:E.
      * apply topLangs_get_own in E. rewrite get_own_weighting in E.
        fold edges in E.
        destruct (get_own k (aggregate edges)); [tauto|discriminate].
      * apply get_own_None in E. contradiction.
    + intros Hne.
      destruct (get_own k (aggregate edges)) as [e0|] eqn:E0;
        [|contradiction].
      assert (E : get_own k (languages pow_approx nodes exclude_repo size_weight
                                       count_weight)
                  = Some (weigh pow_approx size_weight count_weight e0)).
      { apply topLangs_complete; [|exact Hproto].
        rewrite get_own_weighting. fold edges. now rewrite E0. }
      apply get_own_In in E. now apply (in_map fst) in E.
  - intros k e0 Hk E0.
    pose proof (aggregate_get_own edges k Hk) as Hagg.
    rewrite E0 in Hagg. tauto.
Qed.

(** Without repositories, or with all of them excluded, the result is
    empty. *)
Theorem languages_of_no_repository
        pow_approx nodes exclude_repo size_weight count_weight :
  (forall repo, In repo nodes ->
                In (repo_name repo) (excluded_names exclude_repo)) ->
  languages pow_approx nodes exclude_repo size_weight count_weight = [].
Proof.
  intros H.
  assert (E : shown_repos nodes exclude_repo = []).
  { destruct (shown_repos nodes exclude_repo) as [|repo l] eqn:E;
      [reflexivity|].
    assert (Hin : In repo (shown_repos nodes exclude_repo))
      by (rewrite E; now left).
    apply shown_repos_In in Hin. destruct Hin as (Hin & Hex & _).
    exfalso. apply Hex, H, Hin. }
  unfold languages. rewrite E. reflexivity.
Qed.

(** C1, at a failing input.  A single repository named "constructor" with
    one JavaScript edge and an empty exclusion list: the repository is not
    excluded and its edge has the canonical name "JavaScript", yet the
    result is empty. *)
Theorem repository_named_constructor_is_lost :
  let nodes :=
    [ {| repo_name := "constructor";
         repo_size := None;
         repo_edges :=
           [ {| edge_size := 100;
                edge_node := {| node_color := Some "#f1e05a";
                                node_name := "JavaScript" |} |} ] |} ] in
  ~ In "constructor" (excluded_names (Some []))
  /\ (exists repo prev,
         In repo nodes /\ In prev (repo_edges repo)
         /\ normalizedName prev = "JavaScript" /\ edge_size prev = 100%Z)
  /\ languages (fun _ _ => NaN) nodes (Some []) one zero = []
  /\ get_own "JavaScript"
             (languages (fun _ _ => NaN) nodes (Some []) one zero) = None.
Proof.
  intros nodes. split; [intros []|]. split; [|split; reflexivity].
  eexists _, _. split; [now left|]. split; [now left|]. split; reflexivity.
Qed.

(** ** The counter *)

(** One step of the fold: the single counter goes up by one when the lookup
    of the canonical name finds something, an entry or a property inherited
    from [Object.prototype], and is set to 1 otherwise; the entry written
    stores the new value of the counter, the other entries are untouched. *)
Theorem shared_counter_step (acc : obj (Lang jsint)) repoCount prev :
  NoDup (map fst acc) ->
  let k := normalizedName prev in
  let st' := reducer (acc, repoCount) prev in
  snd st' = match get k acc with
            | Own _ | Inherited => (repoCount + 1)%Z
            | Absent => 1%Z
            end
  /\ (exists entry, get_own k (fst st') = Some entry
                    /\ count entry = snd st')
  /\ (forall k', k' <> k -> get_own k' (fst st') = get_own k' acc).
Proof.
  intros Hnd k st'. split; [|split].
  - unfold st', reducer, get. fold k.
    destruct (get_own k acc); [reflexivity|].
    destruct (inherited k); reflexivity.
  - unfold st'. destruct (reducer_cases acc repoCount prev)
      as (s & c' & -> & _). simpl. fold k.
    rewrite get_own_define_same. eexists. split; reflexivity.
  - intros k' Hk'. now apply reducer_get_own_other.
Qed.

(** The count stored for a language is the value of the counter at the last
    edge with that canonical name. *)
Theorem count_is_counter_at_last_touch earlier prev later :
  (forall e, In e later -> normalizedName e <> normalizedName prev) ->
  exists entry,
    get_own (normalizedName prev) (aggregate (earlier ++ prev :: later))
    = Some entry
    /\ count entry = snd (aggregate_state (earlier ++ [prev])).
Proof.
  induction later as [|x later IH] using rev_ind; intros Hlater.
  - unfold aggregate. rewrite aggregate_state_snoc.
    destruct (aggregate_state earlier) as [acc c].
    destruct (reducer_cases acc c prev) as (s & c' & -> & _). simpl.
    rewrite get_own_define_same. eexists. split; reflexivity.
  - destruct IH as (entry & Hget & Hcount).
    { intros e He. apply Hlater. apply in_or_app. now left. }
    exists entry. split; [|exact Hcount].
    replace (earlier ++ prev :: later ++ [x])
      with ((earlier ++ prev :: later) ++ [x])
      by (now rewrite <- app_assoc).
    unfold aggregate in *. rewrite aggregate_state_snoc.
    pose proof (aggregate_NoDup (earlier ++ prev :: later)) as Hnd.
    unfold aggregate in Hnd.
    destruct (aggregate_state (earlier ++ prev :: later)) as [acc c].
    cbn [fst] in Hget, Hnd.
    rewrite reducer_get_own_other; [exact Hget|exact Hnd|].
    intros E. apply (Hlater x); [apply in_or_app; right; now left|].
    now symmetry.
Qed.

(** C2, at a failing input.  A JavaScript edge followed by an edge of a
    language named "constructor": no entry exists for "constructor" after
    the first edge, so the second edge creates one, but the counter goes from
    1 to 2 instead of being reset to 1, and the new entry stores 2. *)
Theorem counter_not_reset_for_prototype_name :
  let javascript := {| edge_size := 10;
                       edge_node := {| node_color := Some "#f1e05a";
                                       node_name := "JavaScript" |} |} in
  let constructor := {| edge_size := 5;
                        edge_node := {| node_color := Some "#ffffff";
                                        node_name := "constructor" |} |} in
  get_own "constructor" (aggregate [javascript]) = None
  /\ counter_trace ([], 0%Z) [javascript; constructor] = [1%Z; 2%Z]
  /\ aggregate [javascript; constructor]
     = [ ("JavaScript",
          {| name := "JavaScript"; color := Some "#f1e05a";
             size := Int 10; count := 1 |});
         ("constructor",
          {| name := "constructor"; color := Some "#ffffff";
             size := IntNaN; count := 2 |}) ].
Proof.
  intros javascript constructor. repeat split.
Qed.

(** ** Ranking *)

Lemma total_size_nonneg edges :
  (forall prev, In prev edges -> (0 <= edge_size prev)%Z) ->
  (0 <= total_size edges)%Z.
Proof.
  unfold total_size. induction edges as [|e edges IH]; simpl; intros H.
  - lia.
  - assert (0 <= edge_size e)%Z by (apply H; now left).
    assert (0 <= fold_right Z.add 0 (map edge_size edges))%Z
      by (apply IH; intros; apply H; now right).
    lia.
Qed.

Lemma StronglySorted_weaken (A : Type) (R R' : A -> A -> Prop)
      (P : A -> Prop) (l : list A) :
  (forall a b, P a -> P b -> R a b -> R' a b) ->
  Forall P l -> StronglySorted R l -> StronglySorted R' l.
Proof.
  intros HR HP Hs. induction Hs as [|x l Hs IH Hx]; [constructor|].
  inversion HP as [|? ? Px Pl]; subst.
  constructor; [now apply IH|].
  rewrite Forall_forall in *. intros y Hy. apply HR; auto.
Qed.

Lemma total_size_filter_le (f : LanguageEdge -> bool) edges :
  (forall prev, In prev edges -> (0 <= edge_size prev)%Z) ->
  (total_size (filter f edges) <= total_size edges)%Z.
Proof.
  unfold total_size. induction edges as [|e edges IH]; simpl; intros H.
  - lia.
  - assert (0 <= edge_size e)%Z by (apply H; now left).
    assert (fold_right Z.add 0 (map edge_size (filter f edges))
            <= fold_right Z.add 0 (map edge_size edges))%Z
      by (apply IH; intros; apply H; now right).
    destruct (f e); simpl; lia.
Qed.

(** With the default weights the sizes of the weighted entries are the
    sums of the aggregate, exact as long as the edge sizes are not negative
    and sum to less than 2^53. *)
Lemma default_weights_exact pow_approx edges :
  (forall prev, In prev edges ->
                inherited (normalizedName prev) = false
                /\ (0 <= edge_size prev)%Z) ->
  (total_size edges < 2 ^ 53)%Z ->
  Forall exact_size (weighting pow_approx one zero (aggregate edges)).
Proof.
  intros Hedges Hbound. apply Forall_forall. intros [k e] Hin.
  assert (Hnd : NoDup (map fst (weighting pow_approx one zero
                                          (aggregate edges)))).
  { rewrite keys_weighting. apply aggregate_NoDup. }
  assert (Hk : inherited k = false).
  { apply (in_map fst) in Hin. rewrite keys_weighting in Hin.
    cbn [fst] in Hin. apply In_keys_aggregate, in_map_iff in Hin.
    destruct Hin as (prev & <- & Hp). now apply Hedges. }
  apply In_get_own in Hin; [|exact Hnd].
  rewrite get_own_weighting in Hin.
  destruct (get_own k (aggregate edges)) as [e0|] eqn:E0; [|discriminate].
  injection Hin as <-.
  pose proof (aggregate_get_own edges k Hk) as Hagg. rewrite E0 in Hagg.
  destruct Hagg as (_ & _ & Hsize).
  exists (total_size (edges_of k edges)). split.
  - split.
    + apply total_size_nonneg. intros prev Hp. unfold edges_of in Hp.
      apply filter_In in Hp. now apply Hedges.
    + apply Z.le_lt_trans with (total_size edges); [|exact Hbound].
      apply total_size_filter_le. intros prev Hp. now apply Hedges.
  - cbn [snd weigh size]. now rewrite weighted_size_default, Hsize.
Qed.

(** When no canonical name is an array index or a name of
    [Object.prototype], no edge size is negative and the sizes sum to less
    than 2^53, the result for the default weights enumerates the weighted
    entries by non-increasing size, entries that tie keeping the order in
    which they entered the aggregate. *)
Theorem ranking_sorted_and_stable
        (pow_approx : number -> number -> number) nodes exclude_repo :
  let edges := flatten_edges (shown_repos nodes exclude_repo) in
  let weighted := weighting pow_approx one zero (aggregate edges) in
  let result := languages pow_approx nodes exclude_repo one zero in
  (forall prev, In prev edges ->
                array_index (normalizedName prev) = None
                /\ inherited (normalizedName prev) = false
                /\ (0 <= edge_size prev)%Z) ->
  (total_size edges < 2 ^ 53)%Z ->
  Permutation (entries result) weighted
  /\ StronglySorted (fun x y => le (size (snd y)) (size (snd x)))
                    (entries result)
  /\ (forall x0, In x0 weighted ->
                 filter (tied x0) (entries result)
                 = filter (tied x0) weighted).
Proof.
  intros edges weighted result Hedges Hbound.
  assert (Hnd : NoDup (map fst weighted)).
  { unfold weighted. rewrite keys_weighting. apply aggregate_NoDup. }
  assert (Hkeys : forall k, In k (map fst weighted) ->
                            array_index k = None /\ inherited k = false).
  { intros k Hk. unfold weighted in Hk. rewrite keys_weighting in Hk.
    apply In_keys_aggregate, in_map_iff in Hk.
    destruct Hk as (prev & <- & Hin). destruct (Hedges prev Hin). tauto. }
  assert (Hexact : Forall exact_size weighted).
  { apply default_weights_exact; [|exact Hbound].
    intros prev Hp. destruct (Hedges prev Hp). tauto. }
  destruct (@topLangs_named weighted Hnd) as [_ Hres].
  { intros k Hk. destruct (Hkeys k Hk) as [Hidx Hinh]. split; [exact Hidx|].
    intros ->. discriminate. }
  fold result in Hres. unfold result in *. unfold languages in *.
  fold edges in Hres |- *. fold weighted in Hres |- *. rewrite Hres.
  split; [apply JSArrayFacts.sort_Permutation|]. split.
  - apply (@StronglySorted_weaken _
             (fun a b => size_before b a = false)
             (fun x y => le (size (snd y)) (size (snd x)))
             exact_size).
    + intros a b Ha Hb H. now apply size_before_false_le.
    + now apply JSArrayFacts.Forall_sort.
    + apply (@JSArrayFacts.sort_StronglySorted _ size_before exact_size).
      * exact size_before_asym.
      * exact size_before_negtrans.
      * exact Hexact.
  - intros x0 Hx0.
    apply (@JSArrayFacts.sort_stable _ size_before exact_size).
    + exact size_before_negtrans.
    + rewrite Forall_forall in Hexact. now apply Hexact.
    + exact Hexact.
Qed.

(** C4, at a failing input.  One repository with a language named "1" of
    size 1 and a language named "2" of size 5, default weights: the sort puts
    "2" first and the result is built in that order, but being array indices
    the two keys are enumerated in ascending numeric order, the smaller size
    first. *)
Theorem array_index_names_are_not_ranked :
  let nodes :=
    [ {| repo_name := "repo";
         repo_size := None;
         repo_edges :=
           [ {| edge_size := 1;
                edge_node := {| node_color := Some "#111111";
                                node_name := "1" |} |};
             {| edge_size := 5;
                edge_node := {| node_color := Some "#222222";
                                node_name := "2" |} |} ] |} ] in
  let result := languages (fun _ _ => NaN) nodes None one zero in
  sorted_keys (weighting (fun _ _ => NaN) one zero
                         (aggregate (flatten_edges
                                       (shown_repos nodes None))))
  = ["2"; "1"]
  /\ entries result
     = [ ("1", {| name := "1"; color := Some "#111111";
                  size := of_int (Int 1); count := 1 |});
         ("2", {| name := "2"; color := Some "#222222";
                  size := of_int (Int 5); count := 1 |}) ]
  /\ keys result = ["1"; "2"]
  /\ ~ le (of_int (Int 5)) (of_int (Int 1)).
Proof.
  intros nodes result.
  split; [vm_compute; reflexivity|].
  split; [vm_compute; reflexivity|].
  split; [vm_compute; reflexivity|].
  unfold le. vm_compute. discriminate.
Qed.

(* ================================================================== *)
(** * Further properties of the code *)
(* ================================================================== *)

(** ** Names, sums and the empty result: instances *)

Lemma languages_names_and_sums_witness :
  let javascript n := {| edge_size := n;
                         edge_node := {| node_color := Some "#f1e05a";
                                         node_name := "JavaScript" |} |} in
  let nodes := [ {| repo_name := "A"; repo_size := None;
                    repo_edges := [javascript 100%Z] |};
                 {| repo_name := "B"; repo_size := None;
                    repo_edges := [javascript 50%Z] |} ] in
  In "JavaScript" (keys (languages (fun _ _ => NaN) nodes None one zero))
  /\ exists e0,
       get_own "JavaScript"
               (aggregate (flatten_edges (shown_repos nodes None)))
       = Some e0
       /\ size e0 = Int 150.
Proof.
  intros javascript nodes.
  destruct (languages_names_and_sums (fun _ _ => NaN) nodes None one zero)
    as (_ & Hkeys & Hsum).
  split.
  - apply (Hkeys "JavaScript" eq_refl). discriminate.
  - eexists. split; [reflexivity|].
    exact (Hsum "JavaScript" _ eq_refl eq_refl).
Defined.

Lemma languages_of_no_repository_witness :
  languages (fun _ _ => NaN) [ {| repo_name := "B"; repo_size := None;
                 repo_edges :=
                   [ {| edge_size := 50;
                        edge_node := {| node_color := None;
                                        node_name := "C" |} |} ] |} ]
            (Some ["B"]) one zero
  = [].
Proof.
  apply languages_of_no_repository.
  intros repo [<-|[]]. now left.
Defined.

Lemma count_is_counter_at_last_touch_witness :
  let edge n s := {| edge_size := s;
                     edge_node := {| node_color := None;
                                     node_name := n |} |} in
  exists entry,
    get_own "Go" (aggregate [edge "C" 1%Z; edge "Go" 2%Z; edge "C" 3%Z])
    = Some entry
    /\ count entry = 1%Z.
Proof.
  intros edge.
  destruct (count_is_counter_at_last_touch
              [edge "C" 1%Z] (edge "Go" 2%Z) [edge "C" 3%Z])
    as (entry & Hget & Hcount).
  - intros e [<-|[]]. discriminate.
  - exists entry. split; [exact Hget|exact Hcount].
Defined.

Lemma ranking_sorted_and_stable_witness :
  let edge n s := {| edge_size := s;
                     edge_node := {| node_color := None;
                                     node_name := n |} |} in
  let nodes := [ {| repo_name := "A"; repo_size := None;
                    repo_edges := [edge "Go" 10%Z] |};
                 {| repo_name := "B"; repo_size := None;
                    repo_edges := [edge "Rust" 1000%Z] |} ] in
  StronglySorted (fun x y => le (size (snd y)) (size (snd x)))
                 (entries (languages (fun _ _ => NaN) nodes None one zero)).
Proof.
  intros edge nodes.
  destruct (ranking_sorted_and_stable (fun _ _ => NaN) nodes None)
    as (_ & Hsorted & _).
  - intros prev [<-|[<-|[]]]; repeat split; discriminate.
  - reflexivity.
  - exact Hsorted.
Defined.

(** ** The call: success, rejection, error payloads *)

(** A call returns a value exactly when the user name is not empty, the
    retryer yields a response and the response has no [errors]; the retryer
    is then invoked once, nothing is logged, and the value is the result of
    the pipeline on the repositories of the response, with the weights 1 and
    0 when they are left out. *)
Theorem call_returns_iff_response_without_errors
        (pow_approx : number -> number -> number)
        (wrapTextMultiline : string -> nat -> nat -> list string)
        (retryer : string -> error + AxiosResponse)
        username exclude_repo size_weight count_weight trace out :
  run retryer (fetchTopLanguages pow_approx wrapTextMultiline
                                 username exclude_repo
                                 size_weight count_weight)
  = (trace, inr out)
  <-> exists login res,
        username = Some login /\ login <> EmptyString
        /\ retryer login = inr res /\ data_errors res = None
        /\ trace = [Fetched login]
        /\ out = languages pow_approx (data_nodes res) exclude_repo
                           match size_weight with Some w => w | None => one end
                           match count_weight with Some w => w | None => zero end.
Proof.
  split.
  - unfold fetchTopLanguages.
    destruct username as [[|c login]|]; simpl; try discriminate.
    destruct (retryer (String c login)) as [e|res] eqn:Hres; simpl;
      [discriminate|].
    destruct (data_errors res) as [errors|] eqn:Herrors.
    + unfold throw_for. simpl.
      destruct errors as [|first rest]; simpl; [discriminate|].
      destruct (is_NOT_FOUND (err_type first)); simpl; [discriminate|].
      destruct (truthy (err_message first)); discriminate.
    + simpl. intros [= <- <-]. exists (String c login), res.
      repeat split; try assumption. discriminate.
  - intros (login & res & -> & Hlogin & Hres & Herrors & -> & ->).
    now apply fetchTopLanguages_success.
Qed.

Lemma call_returns_witness :
  run (fun _ => inr {| data_errors := None; statusText := "OK";
                       data_nodes := [] |})
      (fetchTopLanguages (fun _ _ => NaN) (fun _ _ _ => [])
                         (Some "octocat") None None None)
  = ([Fetched "octocat"], inr []).
Proof.
  apply (proj2 (call_returns_iff_response_without_errors (fun _ _ => NaN)
                  (fun _ _ _ => [])
                  (fun _ => inr {| data_errors := None;
                                   statusText := "OK";
                                   data_nodes := [] |})
                  (Some "octocat") None None None
                  [Fetched "octocat"] [])).
  exists "octocat", {| data_errors := None; statusText := "OK";
                       data_nodes := [] |}.
  repeat split. discriminate.
Defined.

(** When the retryer rejects, the call throws the same error: it has invoked
    the retryer once and logs nothing. *)
Theorem rejection_of_retryer_is_rethrown
        (pow_approx : number -> number -> number)
        (wrapTextMultiline : string -> nat -> nat -> list string)
        (retryer : string -> error + AxiosResponse)
        login rejection exclude_repo size_weight count_weight :
  login <> EmptyString ->
  retryer login = inl rejection ->
  run retryer (fetchTopLanguages pow_approx wrapTextMultiline
                                 (Some login) exclude_repo
                                 size_weight count_weight)
  = ([Fetched login], inl rejection).
Proof.
  intros Hlogin Hres. unfold fetchTopLanguages.
  assert (truthy (Some login) = Some login) as ->.
  { destruct login; [contradiction|reflexivity]. }
  simpl. now rewrite Hres.
Qed.

Lemma rejection_of_retryer_witness :
  run (fun _ => inl (CustomError (Some "Maximum retries exceeded")
                                 (Status "RETRY")))
      (fetchTopLanguages (fun _ _ => NaN) (fun _ _ _ => [])
                         (Some "octocat") None None None)
  = ([Fetched "octocat"],
     inl (CustomError (Some "Maximum retries exceeded") (Status "RETRY"))).
Proof.
  apply rejection_of_retryer_is_rethrown; [discriminate|reflexivity].
Defined.

(** An error payload whose first error is not of type "NOT_FOUND": the call
    fetches once, logs the payload and throws.  With a message that is not
    empty the error carries the first line [wrapTextMultiline] makes of it
    at width 90 and the status text of the response; otherwise it is the
    fixed GraphQL error.  An empty [errors] array makes the read of its first
    element fail with a TypeError, after the logging. *)
Theorem other_error_payloads
        (pow_approx : number -> number -> number)
        (wrapTextMultiline : string -> nat -> nat -> list string)
        (retryer : string -> error + AxiosResponse)
        login res errors exclude_repo size_weight count_weight :
  login <> EmptyString ->
  retryer login = inr res ->
  data_errors res = Some errors ->
  (forall first, hd_error errors = Some first ->
                 err_type first <> Some "NOT_FOUND") ->
  run retryer (fetchTopLanguages pow_approx wrapTextMultiline
                                 (Some login) exclude_repo
                                 size_weight count_weight)
  = ([Fetched login; Logged errors],
     inl match errors with
         | [] => TypeError
         | first :: _ =>
             match err_message first with
             | Some (String _ _ as message) =>
                 CustomError (hd_error (wrapTextMultiline message 90 1))
                             (Status (statusText res))
             | _ =>
                 CustomError
                   (Some "Something went wrong while trying to retrieve the language data using the GraphQL API.")
                   GRAPHQL_ERROR
             end
         end).
Proof.
  intros Hlogin Hres Herrors Htype. unfold fetchTopLanguages.
  assert (truthy (Some login) = Some login) as ->.
  { destruct login; [contradiction|reflexivity]. }
  simpl. rewrite Hres, Herrors. unfold throw_for. simpl.
  destruct errors as [|first rest]; [reflexivity|].
  assert (Hnf : is_NOT_FOUND (err_type first) = false).
  { specialize (Htype first eq_refl). unfold is_NOT_FOUND.
    destruct (err_type first) as [t|]; [|reflexivity].
    destruct (String.eqb_spec t "NOT_FOUND"); [congruence|reflexivity]. }
  rewrite Hnf. unfold truthy.
  destruct (err_message first) as [[|c m]|]; reflexivity.
Qed.

Lemma other_error_payloads_witness :
  run (fun _ => inr {| data_errors :=
                         Some [ {| err_type := Some "RATE_LIMITED";
                                   err_message := Some "API rate limit" |} ];
                       statusText := "Forbidden";
                       data_nodes := [] |})
      (fetchTopLanguages (fun _ _ => NaN) (fun message _ _ => [message])
                         (Some "octocat")
                         None None None)
  = ([Fetched "octocat";
      Logged [ {| err_type := Some "RATE_LIMITED";
                  err_message := Some "API rate limit" |} ]],
     inl (CustomError (Some "API rate limit") (Status "Forbidden"))).
Proof.
  exact (other_error_payloads (fun _ _ => NaN)
           (fun message _ _ => [message])
           (fun _ => inr {| data_errors :=
                              Some [ {| err_type := Some "RATE_LIMITED";
                                        err_message := Some "API rate limit" |} ];
                            statusText := "Forbidden";
                            data_nodes := [] |})
           "octocat"
           {| data_errors :=
                Some [ {| err_type := Some "RATE_LIMITED";
                          err_message := Some "API rate limit" |} ];
              statusText := "Forbidden";
              data_nodes := [] |}
           [ {| err_type := Some "RATE_LIMITED";
                err_message := Some "API rate limit" |} ]
           None None None
           ltac:(discriminate) eq_refl eq_refl
           ltac:(intros first [= <-]; discriminate)).
Defined.

(** ** Exclusion list and flattening *)

(** Only membership in the exclusion list matters, and only for the names of
    the repositories received: two lists that exclude the same ones of them
    (whatever their order, their repetitions and the names that match no
    repository) give the same result. *)
Theorem exclusion_list_is_a_set pow_approx
        nodes exclude_repo exclude_repo' size_weight count_weight :
  (forall repo, In repo nodes ->
                (In (repo_name repo) (excluded_names exclude_repo)
                 <-> In (repo_name repo) (excluded_names exclude_repo'))) ->
  shown_repos nodes exclude_repo = shown_repos nodes exclude_repo'
  /\ languages pow_approx nodes exclude_repo size_weight count_weight
     = languages pow_approx nodes exclude_repo' size_weight count_weight.
Proof.
  intros H.
  assert (E : shown_repos nodes exclude_repo
              = shown_repos nodes exclude_repo').
  { unfold shown_repos. apply filter_ext_in. intros repo Hin.
    apply JSArrayFacts.In_sort in Hin. f_equal.
    destruct (hidden (repoToHide exclude_repo) repo) eqn:E1;
      destruct (hidden (repoToHide exclude_repo') repo) eqn:E2;
      try reflexivity.
    - apply hidden_iff in E1. rewrite (H repo Hin) in E1.
      apply hidden_iff in E1. congruence.
    - apply hidden_iff in E2. rewrite <- (H repo Hin) in E2.
      apply hidden_iff in E2. congruence. }
  split; [exact E|]. unfold languages. now rewrite E.
Qed.

Lemma exclusion_list_witness :
  let repo n := {| repo_name := n; repo_size := None;
                   repo_edges :=
                     [ {| edge_size := 3;
                          edge_node := {| node_color := None;
                                          node_name := "C" |} |} ] |} in
  languages (fun _ _ => NaN) [repo "a"; repo "b"]
            (Some ["b"; "zzz"; "b"]) one zero
  = languages (fun _ _ => NaN) [repo "a"; repo "b"] (Some ["b"]) one zero.
Proof.
  intros repo.
  apply (exclusion_list_is_a_set (fun _ _ => NaN) [repo "a"; repo "b"]
                                 (Some ["b"; "zzz"; "b"]) (Some ["b"])).
  intros r [<-|[<-|[]]]; simpl.
  - split; intros [H|[H|[H|[]]]] || intros [H|[]]; discriminate.
  - split; intros _; now left.
Defined.

Lemma fold_prepend_edges nodes : forall acc,
  fold_left (fun acc curr => repo_edges curr ++ acc)
            (filter (fun node => (0 <? List.length (repo_edges node))%nat)
                    nodes)
            acc
  = List.concat (map repo_edges (rev nodes)) ++ acc.
Proof.
  induction nodes as [|repo nodes IH]; intros acc; [reflexivity|].
  simpl. rewrite map_app, concat_app. simpl.
  rewrite app_nil_r, <- app_assoc.
  destruct (repo_edges repo) as [|e es] eqn:E; simpl.
  - apply IH.
  - rewrite IH. now rewrite E.
Qed.

Lemma flatten_edges_concat nodes :
  flatten_edges nodes = List.concat (map repo_edges (rev nodes)).
Proof.
  unfold flatten_edges. rewrite fold_prepend_edges. apply app_nil_r.
Qed.

(** The edges are visited repository by repository from the last shown to
    the first, inside a repository in the order received; a repository
    without edges contributes nothing. *)
Theorem flatten_edges_reverses_repositories nodes nodes' :
  flatten_edges nodes = List.concat (map repo_edges (rev nodes))
  /\ flatten_edges (nodes ++ nodes')
     = flatten_edges nodes' ++ flatten_edges nodes
  /\ flatten_edges
       (filter (fun node => (0 <? List.length (repo_edges node))%nat) nodes)
     = flatten_edges nodes.
Proof.
  assert (H := flatten_edges_concat).
  split; [apply H|]. split.
  - rewrite !H, rev_app_distr, map_app, concat_app. reflexivity.
  - rewrite !H. induction nodes as [|repo nodes IH]; [reflexivity|].
    simpl. destruct (repo_edges repo) as [|e es] eqn:E; simpl.
    + rewrite map_app, concat_app. simpl. rewrite E, app_nil_r. exact IH.
    + rewrite !map_app, !concat_app. simpl. now rewrite IH.
Qed.

(** ** The keys of the result *)

Lemma rebuild_keys (V : Type) (o : obj V) l : forall (result : obj V),
  NoDup (map fst result) -> ~ In "__proto__" (map fst result) ->
  NoDup (map fst (fold_left (fun result key =>
                               match get_own key o with
                               | Some entry => assign key entry result
                               | None => result
                               end) l result))
  /\ ~ In "__proto__"
          (map fst (fold_left (fun result key =>
                                 match get_own key o with
                                 | Some entry => assign key entry result
                                 | None => result
                                 end) l result)).
Proof.
  induction l as [|key l IH]; simpl; intros result Hnd Hp; [tauto|].
  apply IH.
  - destruct (get_own key o); [|exact Hnd]. unfold assign.
    destruct (String.eqb key "__proto__"); [exact Hnd|].
    now apply NoDup_define.
  - destruct (get_own key o); [|exact Hp]. unfold assign.
    destruct (String.eqb_spec key "__proto__") as [_|Hk]; [exact Hp|].
    rewrite In_keys_define. intros [E|E]; [congruence|contradiction].
Qed.

(** The keys of the result are pairwise distinct; they are the canonical
    names of the edges visited, except ["__proto__"], which never is a key;
    and every entry carries its key as its name. *)
Theorem result_keys pow_approx nodes exclude_repo size_weight count_weight :
  let edges := flatten_edges (shown_repos nodes exclude_repo) in
  let result :=
    languages pow_approx nodes exclude_repo size_weight count_weight in
  NoDup (keys result)
  /\ (forall k, In k (keys result)
                <-> In k (map normalizedName edges) /\ k <> "__proto__")
  /\ (forall k e, get_own k result = Some e -> name e = k).
Proof.
  intros edges result. unfold result, languages. fold edges.
  clear result. clearbody edges.
  set (w := weighting pow_approx size_weight count_weight (aggregate edges)).
  destruct (@rebuild_keys _ w (sorted_keys w) [] (NoDup_nil _) (fun H => H))
    as [Hnd Hproto].
  fold (topLangs w) in Hnd, Hproto.
  split; [|split].
  - unfold keys. now apply NoDup_entries.
  - intros k. rewrite In_keys_entries. split.
    + intros Hin. split; [|intros ->; contradiction].
      destruct (get_own k (topLangs w)) as [e|] eqn:E.
      * apply topLangs_get_own in E. unfold w in E.
        rewrite get_own_weighting in E.
        destruct (get_own k (aggregate edges)) as [e0|] eqn:E0;
          [|discriminate].
        apply In_keys_aggregate. apply get_own_In in E0.
        now apply (in_map fst) in E0.
      * apply get_own_None in E. contradiction.
    + intros [Hin Hk]. apply In_keys_aggregate in Hin.
      destruct (get_own k (aggregate edges)) as [e0|] eqn:E0.
      * assert (E : get_own k (topLangs w)
                    = Some (weigh pow_approx size_weight count_weight e0)).
        { apply topLangs_complete; [|exact Hk].
          unfold w. rewrite get_own_weighting. now rewrite E0. }
        apply get_own_In in E. now apply (in_map fst) in E.
      * apply get_own_None in E0. contradiction.
  - intros k e E. apply topLangs_get_own in E. unfold w in E.
    rewrite get_own_weighting in E.
    destruct (get_own k (aggregate edges)) as [e0|] eqn:E0; [|discriminate].
    injection E as <-. simpl.
    apply aggregate_entry_origin in E0. destruct E0 as (_ & _ & _ & H & _).
    exact H.
Qed.

Lemma result_keys_witness :
  let edge n := {| edge_size := 4;
                   edge_node := {| node_color := None;
                                   node_name := n |} |} in
  let nodes := [ {| repo_name := "A"; repo_size := None;
                    repo_edges := [edge "C"; edge "__proto__"] |} ] in
  In "C" (keys (languages (fun _ _ => NaN) nodes None one zero))
  /\ ~ In "__proto__" (keys (languages (fun _ _ => NaN) nodes None one zero)).
Proof.
  intros edge nodes.
  destruct (result_keys (fun _ _ => NaN) nodes None one zero)
    as (_ & Hkeys & _).
  split.
  - apply Hkeys. split; [now left|discriminate].
  - intros H. apply Hkeys in H. now destruct H.
Defined.

(** ** Counts and colours *)

Lemma aggregate_count_le edges :
  (snd (aggregate_state edges) <= Z.of_nat (List.length edges))%Z
  /\ forall k entry, In (k, entry) (aggregate edges) ->
                     (count entry <= Z.of_nat (List.length edges))%Z.
Proof.
  unfold aggregate. induction edges as [|prev edges IH] using rev_ind.
  - simpl. split; [lia|tauto].
  - rewrite aggregate_state_snoc, length_app. simpl List.length.
    assert (Hnd := aggregate_NoDup edges). unfold aggregate in Hnd.
    destruct (aggregate_state edges) as [acc c]. simpl in IH, Hnd.
    destruct IH as [Hc Hall].
    destruct (reducer_cases acc c prev) as (s & c' & Hred & Hs).
    assert (Hc' : (c' <= Z.of_nat (List.length edges + 1))%Z).
    { destruct (get_own (normalizedName prev) acc);
        [|destruct (inherited (normalizedName prev))]; lia. }
    rewrite Hred. simpl. split; [exact Hc'|].
    intros k entry Hin.
    assert (Hnd' : NoDup (map fst
                            (define (normalizedName prev)
                               {| name := normalizedName prev;
                                  color := normalizedColor prev;
                                  size := s; count := c' |}
                               (spread acc)))).
    { apply NoDup_define. unfold spread. now apply NoDup_entries. }
    apply (In_get_own _ _ _ Hnd') in Hin.
    destruct (String.eqb_spec k (normalizedName prev)) as [->|Hne].
    + rewrite get_own_define_same in Hin. now injection Hin as <-.
    + rewrite get_own_define_other in Hin by exact Hne.
      unfold spread in Hin. rewrite get_own_entries in Hin by exact Hnd.
      apply get_own_In, Hall in Hin. lia.
Qed.

(** Every count of the result lies between 1 and the number of edges
    visited. *)
Theorem counts_are_bounded
        pow_approx nodes exclude_repo size_weight count_weight k e :
  get_own k (languages pow_approx nodes exclude_repo
                       size_weight count_weight) = Some e ->
  (1 <= count e
   <= Z.of_nat (List.length (flatten_edges
                               (shown_repos nodes exclude_repo))))%Z.
Proof.
  intros E. apply topLangs_get_own in E. rewrite get_own_weighting in E.
  destruct (get_own k (aggregate (flatten_edges
                                    (shown_repos nodes exclude_repo))))
    as [e0|] eqn:E0; [|discriminate].
  injection E as <-. simpl. apply get_own_In in E0.
  destruct (aggregate_count_pos
              (flatten_edges (shown_repos nodes exclude_repo))) as [_ Hlo].
  destruct (aggregate_count_le
              (flatten_edges (shown_repos nodes exclude_repo))) as [_ Hhi].
  split; [now apply (Hlo k)|now apply (Hhi k)].
Qed.

Lemma counts_are_bounded_witness :
  let edge n := {| edge_size := 4;
                   edge_node := {| node_color := None;
                                   node_name := n |} |} in
  let nodes := [ {| repo_name := "A"; repo_size := None;
                    repo_edges := [edge "C"; edge "Go"] |};
                 {| repo_name := "B"; repo_size := None;
                    repo_edges := [edge "C"] |} ] in
  (1 <= count (weigh (fun _ _ => NaN) one zero {| name := "C"; color := None;
                            size := Int 8; count := 2 |}) <= 3)%Z.
Proof.
  intros edge nodes.
  apply (counts_are_bounded (fun _ _ => NaN) nodes None one zero "C").
  unfold languages. apply topLangs_complete; [|discriminate].
  rewrite get_own_weighting. reflexivity.
Defined.

(** The entry of a language is the one written at the last edge with its
    canonical name: it carries that name and the colour computed for that
    edge ("#3572A5" for Python, the colour of the edge otherwise), whatever
    colours earlier edges had. *)
Theorem entry_keeps_last_colour earlier prev later :
  (forall e, In e later -> normalizedName e <> normalizedName prev) ->
  exists entry,
    get_own (normalizedName prev) (aggregate (earlier ++ prev :: later))
    = Some entry
    /\ name entry = normalizedName prev
    /\ color entry = normalizedColor prev.
Proof.
  induction later as [|x later IH] using rev_ind; intros Hlater.
  - unfold aggregate. rewrite aggregate_state_snoc.
    destruct (aggregate_state earlier) as [acc c].
    destruct (reducer_cases acc c prev) as (s & c' & -> & _). simpl.
    rewrite get_own_define_same. eexists. repeat split.
  - destruct IH as (entry & Hget & Hrest).
    { intros e He. apply Hlater. apply in_or_app. now left. }
    exists entry. split; [|exact Hrest].
    replace (earlier ++ prev :: later ++ [x])
      with ((earlier ++ prev :: later) ++ [x])
      by (now rewrite <- app_assoc).
    unfold aggregate in *. rewrite aggregate_state_snoc.
    pose proof (aggregate_NoDup (earlier ++ prev :: later)) as Hnd.
    unfold aggregate in Hnd.
    destruct (aggregate_state (earlier ++ prev :: later)) as [acc c].
    cbn [fst] in Hget, Hnd.
    rewrite reducer_get_own_other; [exact Hget|exact Hnd|].
    intros E. apply (Hlater x); [apply in_or_app; right; now left|].
    now symmetry.
Qed.

Lemma entry_keeps_last_colour_witness :
  let edge c := {| edge_size := 4;
                   edge_node := {| node_color := Some c;
                                   node_name := "Go" |} |} in
  exists entry,
    get_own "Go" (aggregate [edge "#000000"; edge "#00ADD8"]) = Some entry
    /\ color entry = Some "#00ADD8".
Proof.
  intros edge.
  destruct (entry_keeps_last_colour [edge "#000000"] (edge "#00ADD8") [])
    as (entry & Hget & _ & Hcolor).
  - intros e [].
  - exists entry. split; [exact Hget|exact Hcolor].
Defined.

(** A language named like a property of [Object.prototype] has a size that
    is NaN, whatever the sizes of its edges, unless the size weight is 0. *)
Theorem prototype_named_language_has_NaN_size
        (pow_approx : number -> number -> number)
        nodes exclude_repo size_weight count_weight k e :
  inherited k = true ->
  is_zero size_weight = false ->
  get_own k (languages pow_approx nodes exclude_repo
                       size_weight count_weight) = Some e ->
  size e = NaN.
Proof.
  intros Hk Hsw E. apply topLangs_get_own in E.
  rewrite get_own_weighting in E.
  destruct (get_own k (aggregate (flatten_edges
                                    (shown_repos nodes exclude_repo))))
    as [e0|] eqn:E0; [|discriminate].
  injection E as <-. cbn [weigh size]. unfold weighted_size.
  rewrite (@aggregate_get_own_inherited _ _ _ Hk E0). cbn [of_int].
  rewrite Math_pow_NaN by exact Hsw. apply FloatFacts.mul_NaN_l.
Qed.

Lemma prototype_named_language_witness :
  let nodes := [ {| repo_name := "A"; repo_size := None;
                    repo_edges :=
                      [ {| edge_size := 12;
                           edge_node := {| node_color := None;
                                           node_name := "toString" |} |} ]
                 |} ] in
  size (weigh (fun _ _ => NaN) one zero
              {| name := "toString"; color := None;
                 size := IntNaN; count := 1 |})
  = NaN.
Proof.
  intros nodes.
  apply (prototype_named_language_has_NaN_size
           (fun _ _ => NaN) nodes None one zero "toString" _
           eq_refl eq_refl).
  unfold languages. apply topLangs_complete; [|discriminate].
  rewrite get_own_weighting. reflexivity.
Defined.

(** ** Order of the repositories *)

Lemma Permutation_filter_same (A : Type) (f : A -> bool) (l l' : list A) :
  Permutation l l' -> Permutation (filter f l) (filter f l').
Proof.
  induction 1 as [|x l l' _ IH|x y l|l l' l'' _ IH1 _ IH2]; simpl.
  - constructor.
  - destruct (f x); [now constructor|exact IH].
  - destruct (f x), (f y); try reflexivity. apply perm_swap.
  - now transitivity (filter f l').
Qed.

Lemma total_size_Permutation edges edges' :
  Permutation edges edges' -> total_size edges = total_size edges'.
Proof.
  unfold total_size.
  induction 1 as [|x l l' _ IH|x y l|l l' l'' _ IH1 _ IH2]; simpl; lia.
Qed.

Lemma aggregate_size_Permutation edges edges' k :
  Permutation edges edges' -> inherited k = false ->
  option_map (@size jsint) (get_own k (aggregate edges))
  = option_map (@size jsint) (get_own k (aggregate edges')).
Proof.
  intros Hp Hk.
  assert (Hof : Permutation (edges_of k edges) (edges_of k edges'))
    by now apply Permutation_filter_same.
  pose proof (aggregate_get_own edges k Hk) as H.
  pose proof (aggregate_get_own edges' k Hk) as H'.
  destruct (get_own k (aggregate edges)) as [e|],
           (get_own k (aggregate edges')) as [e'|]; simpl.
  - destruct H as (_ & _ & ->), H' as (_ & _ & ->).
    now rewrite (total_size_Permutation _ _ Hof).
  - rewrite H' in Hof. apply Permutation_sym, Permutation_nil in Hof.
    now destruct H.
  - rewrite H in Hof. apply Permutation_nil in Hof. now destruct H'.
  - reflexivity.
Qed.

(** The order in which the repositories arrive, and with it the pre-sort,
    has no effect on which languages are aggregated nor on their sizes
    before weighting, for every language not named like a property of
    [Object.prototype]. *)
Theorem sizes_do_not_depend_on_repository_order nodes nodes' exclude_repo k :
  Permutation nodes nodes' ->
  inherited k = false ->
  option_map (@size jsint)
             (get_own k (aggregate (flatten_edges
                                      (shown_repos nodes exclude_repo))))
  = option_map (@size jsint)
               (get_own k (aggregate (flatten_edges
                                        (shown_repos nodes' exclude_repo)))).
Proof.
  intros Hp Hk. apply aggregate_size_Permutation; [|exact Hk].
  rewrite !flatten_edges_concat.
  rewrite <- !flat_map_concat_map.
  apply Permutation_flat_map.
  rewrite <- !Permutation_rev.
  unfold shown_repos. apply Permutation_filter_same. unfold presort.
  rewrite !JSArrayFacts.sort_Permutation. exact Hp.
Qed.

Lemma sizes_do_not_depend_on_order_witness :
  let edge n s := {| edge_size := s;
                     edge_node := {| node_color := None;
                                     node_name := n |} |} in
  let a := {| repo_name := "A"; repo_size := None;
              repo_edges := [edge "C" 1%Z; edge "Go" 2%Z] |} in
  let b := {| repo_name := "B"; repo_size := None;
              repo_edges := [edge "C" 5%Z] |} in
  option_map (@size jsint)
             (get_own "C" (aggregate (flatten_edges
                                        (shown_repos [a; b] None))))
  = option_map (@size jsint)
               (get_own "C" (aggregate (flatten_edges
                                          (shown_repos [b; a] None)))).
Proof.
  intros edge a b.
  apply sizes_do_not_depend_on_repository_order;
    [apply perm_swap|reflexivity].
Defined.

(** When every repository carries a [size], the pre-sort arranges them by
    non-increasing size, and repositories of equal size keep their order. *)
Theorem presort_with_sizes_is_descending nodes :
  (forall repo, In repo nodes -> repo_size repo <> None) ->
  Permutation (presort nodes) nodes
  /\ StronglySorted
       (fun a b => exists x y, repo_size a = Some x /\ repo_size b = Some y
                               /\ (y <= x)%Z)
       (presort nodes)
  /\ (forall z,
         filter (fun r => match repo_size r with
                          | Some s => (s =? z)%Z
                          | None => false
                          end) (presort nodes)
         = filter (fun r => match repo_size r with
                            | Some s => (s =? z)%Z
                            | None => false
                            end) nodes).
Proof.
  intros Hsize.
  set (before := fun a b => int_lt0 (repo_comparefn a b)).
  set (P := fun repo : RepositoryNode => repo_size repo <> None).
  assert (HP : Forall P nodes) by (apply Forall_forall; exact Hsize).
  assert (Hasym : forall a b, P a -> P b ->
                              before a b = true -> before b a = false).
  { unfold P, before, repo_comparefn. intros a b Ha Hb.
    destruct (repo_size a), (repo_size b); try congruence. simpl.
    rewrite Z.ltb_lt, Z.ltb_ge. lia. }
  assert (Hneg : forall a b c, P a -> P b -> P c ->
                               before a b = false -> before b c = false ->
                               before a c = false).
  { unfold P, before, repo_comparefn. intros a b c Ha Hb Hc.
    destruct (repo_size a), (repo_size b), (repo_size c);
      try congruence. simpl.
    rewrite !Z.ltb_ge. lia. }
  split; [apply JSArrayFacts.sort_Permutation|]. split.
  - apply (@StronglySorted_weaken _
             (fun a b => before b a = false) _ P).
    + unfold P, before, repo_comparefn. intros a b Ha Hb.
      destruct (repo_size a) as [x|], (repo_size b) as [y|];
        try congruence. simpl.
      rewrite Z.ltb_ge. intros H. exists x, y. repeat split. lia.
    + now apply JSArrayFacts.Forall_sort.
    + now apply (@JSArrayFacts.sort_StronglySorted _ before P).
  - intros z.
    destruct (filter (fun r => match repo_size r with
                               | Some s => (s =? z)%Z
                               | None => false
                               end) nodes) as [|x0 rest] eqn:E.
    + (* no repository of that size *)
      assert (Hnone : forall r, In r nodes ->
                                match repo_size r with
                                | Some s => (s =? z)%Z
                                | None => false
                                end = false).
      { intros r Hr.
        destruct (match repo_size r with
                  | Some s => (s =? z)%Z
                  | None => false
                  end) eqn:Er; [|reflexivity].
        assert (Hin : In r []) by (rewrite <- E; apply filter_In; tauto).
        destruct Hin. }
      rewrite (filter_ext_in _ (fun _ => false)).
      * clear. induction (presort nodes); simpl; auto.
      * intros r Hr. apply Hnone. now apply JSArrayFacts.In_sort in Hr.
    + rewrite <- E.
      assert (Hx0 : In x0 nodes /\ repo_size x0 = Some z).
      { assert (Hin : In x0 (x0 :: rest)) by now left.
        rewrite <- E in Hin. apply filter_In in Hin.
        destruct Hin as [Hin Hz]. split; [exact Hin|].
        destruct (repo_size x0) as [s|]; [|discriminate].
        apply Z.eqb_eq in Hz. now subst. }
      destruct Hx0 as [Hin0 Hz0].
      assert (Htied : forall r, P r ->
                 negb (before x0 r) && negb (before r x0)
                 = match repo_size r with
                   | Some s => (s =? z)%Z
                   | None => false
                   end).
      { unfold P, before, repo_comparefn. intros r Hr. rewrite Hz0.
        destruct (repo_size r) as [s|]; [|congruence]. simpl.
        destruct (Z.ltb_spec (s - z) 0), (Z.ltb_spec (z - s) 0),
                 (Z.eqb_spec s z); simpl; try reflexivity; lia. }
      rewrite <- (filter_ext_in
                    (fun r => negb (before x0 r) && negb (before r x0))
                    _ (presort nodes)).
      * rewrite <- (filter_ext_in
                      (fun r => negb (before x0 r) && negb (before r x0))
                      _ nodes).
        -- apply (@JSArrayFacts.sort_stable _ before P Hneg x0 nodes);
             [now apply Hsize|exact HP].
        -- intros r Hr. apply Htied. now apply Hsize.
      * intros r Hr. apply Htied. apply Hsize.
        now apply JSArrayFacts.In_sort in Hr.
Qed.

Lemma presort_with_sizes_witness :
  let repo n s := {| repo_name := n; repo_size := Some s;
                     repo_edges := [] |} in
  presort [repo "a" 1%Z; repo "b" 7%Z; repo "c" 1%Z; repo "d" 9%Z]
  = [repo "d" 9%Z; repo "b" 7%Z; repo "a" 1%Z; repo "c" 1%Z]
  /\ Permutation
       (presort [repo "a" 1%Z; repo "b" 7%Z; repo "c" 1%Z; repo "d" 9%Z])
       [repo "a" 1%Z; repo "b" 7%Z; repo "c" 1%Z; repo "d" 9%Z].
Proof.
  intros repo. split; [reflexivity|].
  apply presort_with_sizes_is_descending.
  intros r [<-|[<-|[<-|[<-|[]]]]]; discriminate.
Defined.

(** ** Where the entries of the result come from *)

Lemma result_key_is_visited
      pow_approx nodes exclude_repo size_weight count_weight k :
  In k (keys (languages pow_approx nodes exclude_repo
                        size_weight count_weight)) ->
  In k (map normalizedName
            (flatten_edges (shown_repos nodes exclude_repo))).
Proof.
  rewrite In_keys_entries. intros Hin.
  destruct (get_own k (languages pow_approx nodes exclude_repo size_weight
                                 count_weight)) as [e|] eqn:E.
  - apply topLangs_get_own in E. rewrite get_own_weighting in E.
    destruct (get_own k (aggregate (flatten_edges
                                      (shown_repos nodes exclude_repo))))
      as [e0|] eqn:E0; [|discriminate].
    apply In_keys_aggregate. apply get_own_In in E0.
    now apply (in_map fst) in E0.
  - apply get_own_None in E. contradiction.
Qed.

(** Every language of the result comes from a repository received that is
    not excluded: a language whose edges all lie in excluded repositories
    never appears. *)
Theorem result_names_come_from_shown_repositories pow_approx
        nodes exclude_repo size_weight count_weight k :
  In k (keys (languages pow_approx nodes exclude_repo
                        size_weight count_weight)) ->
  exists repo prev,
    In repo nodes
    /\ ~ In (repo_name repo) (excluded_names exclude_repo)
    /\ In prev (repo_edges repo)
    /\ normalizedName prev = k.
Proof.
  intros Hin. apply result_key_is_visited, in_map_iff in Hin.
  destruct Hin as (prev & Hname & Hprev).
  apply flatten_edges_In in Hprev. destruct Hprev as (repo & Hrepo & Hedge).
  apply shown_repos_In in Hrepo. destruct Hrepo as (Hnodes & Hex & _).
  exists repo, prev. tauto.
Qed.

Lemma result_names_witness :
  let edge n := {| edge_size := 4;
                   edge_node := {| node_color := None;
                                   node_name := n |} |} in
  let nodes := [ {| repo_name := "A"; repo_size := None;
                    repo_edges := [edge "C"] |};
                 {| repo_name := "B"; repo_size := None;
                    repo_edges := [edge "Go"] |} ] in
  ~ In "Go" (keys (languages (fun _ _ => NaN) nodes (Some ["B"]) one zero)).
Proof.
  intros edge nodes Hin.
  destruct (result_names_come_from_shown_repositories (fun _ _ => NaN)
              nodes (Some ["B"]) one zero "Go" Hin)
    as (repo & prev & Hrepo & Hex & Hprev & Hname).
  destruct Hrepo as [<-|[<-|[]]].
  - destruct Hprev as [<-|[]]. discriminate.
  - apply Hex. now left.
Defined.

(** With the default weights, when no edge visited has a negative size and
    the sizes sum to less than 2^53, every language of the result that is
    not named like a property of [Object.prototype] has a size that is a
    number and is not negative. *)
Theorem result_sizes_are_not_negative
        (pow_approx : number -> number -> number) nodes exclude_repo k e :
  (forall prev,
      In prev (flatten_edges (shown_repos nodes exclude_repo)) ->
      (0 <= edge_size prev)%Z) ->
  (total_size (flatten_edges (shown_repos nodes exclude_repo)) < 2 ^ 53)%Z ->
  inherited k = false ->
  get_own k (languages pow_approx nodes exclude_repo one zero) = Some e ->
  le zero (size e).
Proof.
  intros Hpos Hbound Hk E. apply topLangs_get_own in E.
  rewrite get_own_weighting in E.
  set (edges := flatten_edges (shown_repos nodes exclude_repo)) in *.
  pose proof (aggregate_get_own edges k Hk) as Hagg.
  destruct (get_own k (aggregate edges)) as [e0|] eqn:E0; [|discriminate].
  injection E as <-. cbn [weigh size]. destruct Hagg as (_ & _ & Hsize).
  rewrite weighted_size_default, Hsize.
  assert (Hz : (0 <= total_size (edges_of k edges))%Z).
  { apply total_size_nonneg. intros prev Hp. unfold edges_of in Hp.
    apply filter_In in Hp. now apply Hpos. }
  assert (Hle : (total_size (edges_of k edges) <= total_size edges)%Z)
    by (apply total_size_filter_le; exact Hpos).
  change zero with (of_int (Int 0)).
  apply FloatFacts.of_int_monotone; lia.
Qed.

Lemma result_sizes_witness :
  let nodes := [ {| repo_name := "A"; repo_size := None;
                    repo_edges :=
                      [ {| edge_size := 0;
                           edge_node := {| node_color := None;
                                           node_name := "C" |} |} ] |} ] in
  le zero (size (weigh (fun _ _ => NaN) one zero
                       {| name := "C"; color := None;
                          size := Int 0; count := 1 |})).
Proof.
  intros nodes.
  apply (result_sizes_are_not_negative (fun _ _ => NaN) nodes None "C").
  - intros prev [<-|[]]. discriminate.
  - reflexivity.
  - reflexivity.
  - unfold languages. apply topLangs_complete; [|discriminate].
    rewrite get_own_weighting. reflexivity.
Defined.
